(** * analyse_avr_call_tree: the listing parser and the call-tree walker

    A shallow embedding of [analyse_avr_call_tree.py].  The script reads an
    AVR [.lss] listing, builds one [Function] per symbol block (name,
    address, body lines, set of callees, stack-frame size) and prints the
    call tree below a start symbol with the stack size accumulated on the
    way down.

    Conventions of the embedding:
    - Python [str] is [string].  The character classes are those of
      Python 2 byte strings, for which the script was written: white space
      ([\s], [str.strip], [str.split]) is space, TAB, LF, VT, FF and CR, a
      word character ([\w]) is one of [[A-Za-z0-9_]].  Python 3 agrees on
      the text of a listing; it counts in addition the separators 0x1c to
      0x1f and the white space and letters beyond ASCII.
    - A Python exception is a [Raise e] in the [result] monad.
    - [re.match] is a backtracking matcher over the patterns of the script,
      transcribed construct by construct.
    - [print] appends a line to the output of the walker.
    - A [dict] is a [gmap], a [set] is a [gset]; the order in which a set
      is iterated is a parameter of the walker.
    - Where Python 2 and Python 3 differ on the script ([max] of [None]
      and a number), the interpreter is a parameter. *)

From Stdlib Require Import ZArith Ascii String List.
From stdpp Require Import base option list strings gmap pretty.

Open Scope string_scope.
Open Scope Z_scope.
Open Scope list_scope.

(** ** Exceptions *)

Inductive exn := TypeError | IndexError | ValueError | AttributeError.

Inductive result (A : Type) : Type :=
| Ok (a : A)
| Raise (e : exn).
Arguments Ok {A} a.
Arguments Raise {A} e.

Global Instance result_ret : MRet result := λ A a, Ok a.
Global Instance result_bind : MBind result := λ A B f m,
  match m with
  | Ok a => f a
  | Raise e => Raise e
  end.

Global Instance result_fmap : FMap result := λ A B f m,
  match m with
  | Ok a => Ok (f a)
  | Raise e => Raise e
  end.

(** ** Characters and strings *)

Definition TAB : ascii := "009"%char.
Definition LF : ascii := "010"%char.
Definition tab : string := String TAB "".

Definition in_range (lo hi c : ascii) : bool :=
  ((N_of_ascii lo <=? N_of_ascii c) && (N_of_ascii c <=? N_of_ascii hi))%N.

Definition is_digit (c : ascii) : bool := in_range "0" "9" c.

(** [[0-9a-f]] *)
Definition is_hex (c : ascii) : bool := is_digit c || in_range "a" "f" c.

(** [[x0-9a-f]] *)
Definition is_xhex (c : ascii) : bool := bool_decide (c = "x"%char) || is_hex c.

(** [\w] *)
Definition is_word (c : ascii) : bool :=
  is_digit c || in_range "a" "z" c || in_range "A" "Z" c
  || bool_decide (c = "_"%char).

(** [\s]; also the characters removed by [str.strip()] and separating the
    fields of [str.split()]. *)
Definition is_space (c : ascii) : bool :=
  bool_decide (c = " "%char) || in_range "009" "013" c.

(** [\S] *)
Definition is_nonspace (c : ascii) : bool := negb (is_space c).

(** [.] (without DOTALL) *)
Definition is_dot (c : ascii) : bool := negb (bool_decide (c = LF)).

Fixpoint lstrip (s : string) : string :=
  match s with
  | String c s' => if is_space c then lstrip s' else s
  | EmptyString => s
  end.

Definition rstrip (s : string) : string := String.rev (lstrip (String.rev s)).

(** [s.strip()] *)
Definition strip (s : string) : string := rstrip (lstrip s).

(** [s.split()]: the maximal runs of non-space characters. [cur] is the
    field being read, in reverse. *)
Fixpoint split_go (cur : option string) (s : string) : list string :=
  match s with
  | EmptyString =>
      match cur with Some w => [String.rev w] | None => [] end
  | String c s' =>
      if is_space c then
        match cur with
        | Some w => String.rev w :: split_go None s'
        | None => split_go None s'
        end
      else split_go (Some (String c (default "" cur))) s'
  end.

Definition split (s : string) : list string := split_go None s.

(** [v[i]] on a list *)
Definition index {A} (v : list A) (i : nat) : result A :=
  match v !! i with
  | Some x => Ok x
  | None => Raise IndexError
  end.

(** [v[-1]] on a list *)
Definition last_item {A} (v : list A) : result A :=
  match last v with
  | Some x => Ok x
  | None => Raise IndexError
  end.

(** The value of a hexadecimal digit, either case. *)
Definition hex_value (c : ascii) : option Z :=
  if is_digit c then Some (Z.of_N (N_of_ascii c) - 48)
  else if in_range "a" "f" c then Some (Z.of_N (N_of_ascii c) - 87)
  else if in_range "A" "F" c then Some (Z.of_N (N_of_ascii c) - 55)
  else None.

Fixpoint hex_digits (acc : Z) (s : string) : option Z :=
  match s with
  | EmptyString => Some acc
  | String c s' =>
      match hex_value c with
      | Some d => hex_digits (16 * acc + d) s'
      | None => None
      end
  end.

(** [int(s, 16)]: surrounding white space, an optional sign, an optional
    [0x] or [0X], then at least one hexadecimal digit.  (Digit separators
    [_], accepted by later Python 3 versions, are not modelled: such a
    string is a [ValueError] here.) *)
Definition int16 (s : string) : result Z :=
  let s := strip s in
  let '(sign, s) :=
    match s with
    | String "-" t => (-1, t)
    | String "+" t => (1, t)
    | _ => (1, s)
    end in
  let s :=
    match s with
    | String "0" (String "x" t) => t
    | String "0" (String "X" t) => t
    | _ => s
    end in
  match s with
  | EmptyString => Raise ValueError
  | _ =>
      match hex_digits 0 s with
      | Some n => Ok (sign * n)
      | None => Raise ValueError
      end
  end.

(** ** Regular expressions

    The fragment of Python's [re] the script uses.  [Star p] is the greedy
    repetition of a one-character class; [X+] is [X X*]; [X{2}] is [X X];
    [Opt r] is the greedy [(r)?]; [Grp n r] is the named group
    [(?P<n>r)].  The two unnamed groups of [instr_line_pat] are never read
    by the script and are transcribed as plain grouping. *)

Inductive regex :=
| Eps
| Chr (c : ascii)
| Cls (p : ascii → bool)
| Seq (r1 r2 : regex)
| Star (p : ascii → bool)
| Opt (r : regex)
| Grp (n : string) (r : regex).
Arguments Chr c%_char.

Definition Plus (p : ascii → bool) : regex := Seq (Cls p) (Star p).
Definition cat (rs : list regex) : regex := foldr Seq Eps rs.

(** The groups of a match object: [m.group(n)] is [m !! n], [None] for a
    group that took no part in the match. *)
Abbreviation groups := (gmap string string).

(** The text matched between position [s] and the later position [s']. *)
Definition consumed (s s' : string) : string :=
  substring 0 (String.length s - String.length s') s.

Section matcher.
Context {A : Type}.

(** Greedy [p*] followed by [k]: the longest run first, then shorter
    ones. *)
Fixpoint star (p : ascii → bool) (s : string) (k : string → option A)
  : option A :=
  match s with
  | String c s' =>
      if p c then
        match star p s' k with
        | Some r => Some r
        | None => k s
        end
      else k s
  | EmptyString => k s
  end.

(** Backtracking match of [r] at the start of [s], then [k] on what is
    left; the first success in Python's order of preference. *)
Fixpoint rmatch (r : regex) (s : string) (g : groups)
    (k : string → groups → option A) : option A :=
  match r with
  | Eps => k s g
  | Chr c =>
      match s with
      | String c' s' => if bool_decide (c' = c) then k s' g else None
      | EmptyString => None
      end
  | Cls p =>
      match s with
      | String c' s' => if p c' then k s' g else None
      | EmptyString => None
      end
  | Seq r1 r2 => rmatch r1 s g (λ s' g', rmatch r2 s' g' k)
  | Star p => star p s (λ s', k s' g)
  | Opt r =>
      match rmatch r s g k with
      | Some x => Some x
      | None => k s g
      end
  | Grp n r => rmatch r s g (λ s' g', k s' (<[n := consumed s s']> g'))
  end.
End matcher.

(** [pat.match(s)] *)
Definition re_match (pat : regex) (s : string) : option groups :=
  rmatch pat s ∅ (λ _ g, Some g).

(** [[0-9a-f]{2} \s [0-9a-f]{2}] *)
Definition byte_pair : regex :=
  cat [Cls is_hex; Cls is_hex; Cls is_space; Cls is_hex; Cls is_hex].

(** [(?P<addr>[0-9a-f]+)\s+<(?P<name>\w+)>:] *)
Definition first_line_pat : regex :=
  cat [Grp "addr" (Plus is_hex); Plus is_space; Chr "<";
       Grp "name" (Plus is_word); Chr ">"; Chr ":"].

(** [(?P<addr>[0-9a-f]+): \s+ (?P<byts1>..) \s+ ((?P<byts2>..) \s+)?
     (?P<opc>\w+) (\s+ (?P<rest> .* ))?] with re.VERBOSE *)
Definition instr_line_pat : regex :=
  cat [Grp "addr" (Plus is_hex); Chr ":"; Plus is_space;
       Grp "byts1" byte_pair; Plus is_space;
       Opt (cat [Grp "byts2" byte_pair; Plus is_space]);
       Grp "opc" (Plus is_word);
       Opt (cat [Plus is_space; Grp "rest" (Star is_dot)])].

(** [(?P<opnd>\S+) \s+ ; \s+ (?P<addr>[x0-9a-f]+) \s+ <(?P<name>\w+)>]
    with re.VERBOSE *)
Definition rest_pat : regex :=
  cat [Grp "opnd" (Plus is_nonspace); Plus is_space; Chr ";"; Plus is_space;
       Grp "addr" (Plus is_xhex); Plus is_space; Chr "<";
       Grp "name" (Plus is_word); Chr ">"].

(** Typed readers of the three match objects: the groups the script reads
    from each.  (They are [None] exactly when the pattern does not match,
    see [first_line_match_None] and its siblings below.) *)

(** [m.group('name')], [m.group('addr')] of [first_line_pat] *)
Definition first_line_match (s : string) : option (string * string) :=
  m ← re_match first_line_pat s;
  name ← m !! "name"; addr ← m !! "addr"; Some (name, addr).

(** [m.group('opc')], [m.group('rest')] of [instr_line_pat]; the second is
    [None] when the optional group is absent. *)
Definition instr_line_match (s : string) : option (string * option string) :=
  m ← re_match instr_line_pat s;
  opc ← m !! "opc"; Some (opc, m !! "rest").

(** [m.group('name')] of [rest_pat] *)
Definition rest_match (s : string) : option string :=
  m ← re_match rest_pat s; m !! "name".

(** ** class Function *)

Record Function := {
  _name : string;
  _addr : Z;
  _body : list string;
  _callees : gset string;
  _stacksize : Z
}.

(** [analyse_call(self, line, is_last)]; [callees] is [self._callees]
    before the call, the result is [self._callees] after it.
    [rest_pat.match(None)] is a [TypeError]. *)
Definition analyse_call (callees : gset string) (line : string)
    (is_last : bool) : result (gset string) :=
  match instr_line_match (strip line) with
  | Some (opc, rest) =>
      if bool_decide (opc ∈ ["call"; "rcall"])
         || is_last && bool_decide (opc ∈ ["jmp"; "rjmp"])
      then
        match rest with
        | None => Raise TypeError
        | Some rest =>
            match rest_match rest with
            | Some callee => Ok ({[callee]} ∪ callees)
            | None => Ok callees
            end
        end
      else if bool_decide (opc ∈ ["icall"]) then Ok callees
      else (* [if opc.endswith('call'): pass] *) Ok callees
  | None => Ok callees
  end.

(** [for b in bs: self.analyse_call(b)] *)
Fixpoint analyse_calls (callees : gset string) (bs : list string)
  : result (gset string) :=
  match bs with
  | [] => Ok callees
  | b :: bs' => callees ← analyse_call callees b false; analyse_calls callees bs'
  end.

(** The two statements of [__init__] that fill [self._callees]:
    the loop over [self._body[:-1]], then [self._body[-1]] as a possible
    tail call. *)
Definition find_callees (body : list string) : result (gset string) :=
  callees ← analyse_calls ∅ (removelast body);
  b ← last_item body;
  analyse_call callees b true.

(** The local variables of [count_pushes]. *)
Record scan := {
  count : Z;
  done_pushes : bool;
  nr_in : Z
}.

(** How an iteration of the loop ends: with the next line ([continue], or
    the end of the loop body), or with [break]. *)
Inductive ctl :=
| Next (s : scan)
| Break (s : scan).

Definition scan_of (c : ctl) : scan :=
  match c with Next s | Break s => s end.

(** One iteration of the [for b in self.body] loop of [count_pushes]. *)
Definition count_pushes_line (s : scan) (b : string) : result ctl :=
  match instr_line_match (strip b) with
  | None => Ok (Next s)
  | Some (opc, rest) =>
      if negb (done_pushes s) && bool_decide (opc = "push") then
        Ok (Next {| count := count s + 1; done_pushes := done_pushes s;
                    nr_in := nr_in s |})
      else
        let s := {| count := count s; done_pushes := true;
                    nr_in := nr_in s |} in
        if (nr_in s <? 2) && bool_decide (opc = "in") then
          Ok (Next {| count := count s; done_pushes := done_pushes s;
                      nr_in := nr_in s + 1 |})
        else if (nr_in s =? 2) && bool_decide (opc ∈ ["sbiw"; "subi"]) then
          match rest with
          | None => Raise AttributeError
          | Some rest =>
              let v := split rest in
              v0 ← index v 0;
              if bool_decide (v0 = "r28,") then
                v1 ← index v 1;
                num ← int16 v1;
                Ok (Break {| count := count s + num;
                             done_pushes := done_pushes s;
                             nr_in := nr_in s |})
              else Ok (Next s)
          end
        else Ok (Next s)
  end.

Fixpoint count_pushes_loop (s : scan) (body : list string) : result ctl :=
  match body with
  | [] => Ok (Next s)
  | b :: body' =>
      c ← count_pushes_line s b;
      match c with
      | Next s' => count_pushes_loop s' body'
      | Break s' => Ok (Break s')
      end
  end.

Definition scan0 : scan := {| count := 0; done_pushes := false; nr_in := 0 |}.

(** [count_pushes(self)], as a function of [self.body] *)
Definition count_pushes (body : list string) : result Z :=
  c ← count_pushes_loop scan0 body; Ok (count (scan_of c)).

(** [Function(lines)], that is [__init__]. [lines[0]] and
    [self._body[-1]] are an [IndexError] on an empty list. *)
Definition Function_init (lines : list string) : result Function :=
  l0 ← index lines 0;
  '(name, addr, body) ←
    match first_line_match l0 with
    | Some (name, addr) => addr ← int16 addr; Ok (name, addr, drop 1 lines)
    | None => Ok ("unknown", 0, lines)
    end;
  callees ← find_callees body;
  stacksize ← count_pushes body;
  Ok {| _name := name; _addr := addr; _body := body; _callees := callees;
        _stacksize := stacksize |}.

(** [process_lss]: every block becomes a [Function], stored in
    [all_funcs] under its name; a later block replaces an earlier one of
    the same name.  The blocks are the chunks of [get_funcs], each cut into
    lines. *)
Fixpoint process_lss (all_funcs : gmap string Function)
    (blocks : list (list string)) : result (gmap string Function) :=
  match blocks with
  | [] => Ok all_funcs
  | lines :: blocks' =>
      f ← Function_init lines;
      process_lss (<[_name f := f]> all_funcs) blocks'
  end.

(** ** The call tree *)

(** [max(None, n)] depends on the interpreter: Python 2 orders [None] below
    every number, Python 3 refuses the comparison. *)
Inductive python := Python2 | Python3.

(** [max(this_ss, max_ss)], where [this_ss] is what a recursive call
    returned: a number, or [None] after the bare [return]. *)
Definition py_max (py : python) (this_ss : option Z) (max_ss : Z) : result Z :=
  match this_ss with
  | Some n => Ok (Z.max n max_ss)
  | None =>
      match py with
      | Python2 => Ok max_ss
      | Python3 => Raise TypeError
      end
  end.

(** The three [print] statements of [print_call_tree], with the values
    their format strings read. *)
Inductive out_line :=
| Node (stacksize my_stacksize : Z) (level : nat) (funcname : string)
| NestedTooDeeply (level : nat)
| RecursiveCall (level : nat) (funcname : string).

(** [s * n] on strings *)
Fixpoint repeat_str (s : string) (n : nat) : string :=
  match n with
  | O => ""
  | S n' => s +:+ repeat_str s n'
  end.

(** [%3d] *)
Definition fmt_3d (n : Z) : string :=
  let d := pretty n in
  repeat_str " " (3 - String.length d) +:+ d.

(** The indentation of the two markers:
    [' ' * 8 + '  ' * (level + 1)]. *)
Definition marker_indent (level : nat) : string :=
  repeat_str " " 8 +:+ repeat_str "  " (level + 1).

(** The text of a printed line. *)
Definition render (l : out_line) : string :=
  match l with
  | Node stacksize my_stacksize level funcname =>
      fmt_3d stacksize +:+ " " +:+ fmt_3d my_stacksize +:+ " "
      +:+ repeat_str "  " level +:+ funcname
  | NestedTooDeeply level => marker_indent level +:+ " !!!! Nested too deeply"
  | RecursiveCall level funcname =>
      marker_indent level +:+ funcname +:+ " !!!! Recursive call"
  end.

(** What a call of [print_call_tree] leaves behind: the lines printed, and
    the value returned ([None] for Python's [None]) or the exception
    raised. *)
Abbreviation walked := (list out_line * result (option Z))%type.

Section walker.
(** The interpreter. *)
Variable py : python.
(** The [callees] property, [[c for c in self._callees]]: the callees in
    the order in which the set of this [Function] is iterated. *)
Variable callees : Function → list string.
(** The global [all_funcs]. *)
Variable all_funcs : gmap string Function.

(** The body of [for c in func.callees], [rec c] being the recursive call
    [print_call_tree(args, c, stacksize, level + 1)]. The loop ends with
    the final [max_ss], or with an exception after the lines printed so
    far. *)
Fixpoint for_callees (rec : string → option walked) (funcname : string)
    (level : nat) (cs : list string) (max_ss : Z)
  : option (list out_line * result Z) :=
  match cs with
  | [] => Some ([], Ok max_ss)
  | c :: cs' =>
      if bool_decide (c = funcname) then
        '(out, r) ← for_callees rec funcname level cs' max_ss;
        Some (RecursiveCall level funcname :: out, r)
      else
        '(out1, r1) ← rec c;
        match this_ss ← r1; py_max py this_ss max_ss with
        | Ok max_ss' =>
            '(out2, r2) ← for_callees rec funcname level cs' max_ss';
            Some (out1 ++ out2, r2)
        | Raise e => Some (out1, Raise e)
        end
  end.

(** [print_call_tree(args, funcname, stacksize, level)].  The recursion
    is on [fuel]; [None] means the fuel ran out, which
    [print_call_tree] below rules out. *)
Fixpoint print_call_tree_rec (fuel : nat) (funcname : string)
    (stacksize : Z) (level : nat) : option walked :=
  let func := all_funcs !! funcname in
  let my_stacksize := from_option _stacksize 0 func in
  let stacksize := stacksize + my_stacksize in
  let line := Node stacksize my_stacksize level funcname in
  if bool_decide (20 < level)%nat then
    Some ([line; NestedTooDeeply level], Ok None)
  else
    match fuel with
    | O => None
    | S fuel' =>
        '(out, r) ←
          match func return option (list out_line * result Z) with
          | Some func =>
              for_callees (λ c, print_call_tree_rec fuel' c stacksize (S level))
                funcname level (callees func) stacksize
          | None => Some ([], Ok stacksize)
          end;
        Some (line :: out, fmap (M:=result) Some r)
    end.

(** A call at [level] nests at most [21 - level] calls deep. *)
Definition print_call_tree (funcname : string) (stacksize : Z)
    (level : nat) : option walked :=
  print_call_tree_rec (21 - level) funcname stacksize level.

Definition dquote : string := String "034"%char "".

(** The end of [main], after [process_lss]: the warning on [stderr],
    the tree and the summary line on [stdout].  [%d] of [None] is a
    [TypeError]. *)
Definition main (func : string)
  : option (list string * list string * result ()) :=
  let err :=
    if bool_decide (all_funcs !! func = None)
    then ["ERROR: Function " +:+ dquote +:+ func +:+ dquote +:+ " not found"]
    else [] in
  '(out, r) ← print_call_tree func 0 0;
  let out := render <$> out in
  match r with
  | Ok (Some ss) =>
      Some (err, out ++ ["Deepest stacksize: " +:+ pretty ss], Ok ())
  | Ok None => Some (err, out, Raise TypeError)
  | Raise e => Some (err, out, Raise e)
  end.
End walker.

(** ** Definitions for the statements and proofs below *)

(** The opcode of a body line, [None] for a line that is no instruction. *)
Definition opcode (line : string) : option string :=
  fst <$> instr_line_match (strip line).

(** The opcodes of the instruction lines of a body, in order. *)
Definition opcodes (body : list string) : list string := omap opcode body.

(** The number of [in] instructions among the lines [body]. *)
Definition ins (body : list string) : nat :=
  length (filter (λ opc, opc = "in") (opcodes body)).

(** The instructions of a body after its leading run of [push]. *)
Fixpoint after_pushes (instrs : list (string * option string))
  : list (string * option string) :=
  match instrs with
  | (opc, rest) :: instrs' =>
      if bool_decide (opc = "push") then after_pushes instrs' else instrs
  | [] => []
  end.

(** From the specification, the fixed idiom of the frame set-up: the
    instructions of the body are a run of [push] (possibly empty), then
    two [in], then a [sbiw] or [subi] whose first operand is [r28]. *)
Definition frame_setup (body : list string) : bool :=
  match after_pushes (omap (λ b, instr_line_match (strip b)) body) with
  | (in1, _) :: (in2, _) :: (sub, Some rest) :: _ =>
      bool_decide (in1 = "in") && bool_decide (in2 = "in")
      && bool_decide (sub ∈ ["sbiw"; "subi"])
      && bool_decide (head (split rest) = Some "r28,")
  | _ => false
  end.

(** From the specification, the call edges the resolver is to find: [line]
    is an instruction whose opcode is [call] or [rcall], or [jmp] or [rjmp]
    on the last line of the body, and whose remainder names [callee] in a
    resolved comment. *)
Definition call_edge (line : string) (is_last : bool) (callee : string) : Prop :=
  ∃ opc rest,
    instr_line_match (strip line) = Some (opc, Some rest)
    ∧ (opc = "call" ∨ opc = "rcall"
       ∨ (is_last = true ∧ (opc = "jmp" ∨ opc = "rjmp")))
    ∧ rest_match rest = Some callee.

(** The cumulative stack sizes on the [Node] lines of an output. *)
Definition cumulative (out : list out_line) : list Z :=
  omap (λ l, match l with Node stacksize _ _ _ => Some stacksize | _ => None end)
       out.

(** The marker of a direct recursion. *)
Definition is_marker (l : out_line) : bool :=
  match l with RecursiveCall _ _ => true | _ => false end.

(** The marker of the depth cap. *)
Definition is_too_deep (l : out_line) : bool :=
  match l with NestedTooDeeply _ => true | _ => false end.

(** The callees of a [Function] without the function itself. *)
Definition callees_noself (callees : Function → list string) (f : Function)
  : list string :=
  filter (λ c, c ≠ _name f) (callees f).

(** An output without its [RecursiveCall] lines. *)
Definition unmarked {A} (w : list out_line * A) : list out_line * A :=
  (filter (λ l, is_marker l = false) w.1, w.2).

(** The groups a pattern sets in every match: the named groups outside any
    optional part. *)
Fixpoint binds (r : regex) (n : string) : bool :=
  match r with
  | Grp n' r => bool_decide (n = n') || binds r n
  | Seq r1 r2 => binds r1 n || binds r2 n
  | _ => false
  end.

(** The only exception the walker raises is the [TypeError] of [max]. *)
Definition only_TypeError {A} (r : result A) : Prop :=
  ∀ e, r = Raise e → e = TypeError.

(** [max(this_ss, max_ss)] on what a recursive call left. *)
Definition child_max (py : python) (r : result (option Z)) (max_ss : Z)
  : result Z :=
  this_ss ← r; py_max py this_ss max_ss.

(** The loop over the callees, on the results of the recursive calls. *)
Fixpoint fold_results (py : python) (rs : list (result (option Z)))
    (max_ss : Z) : result Z :=
  match rs with
  | [] => Ok max_ss
  | r :: rs' =>
      match child_max py r max_ss with
      | Ok max_ss' => fold_results py rs' max_ss'
      | Raise e => Raise e
      end
  end.

(** [m] is the largest cumulative size printed in [out]. *)
Definition is_max_of (out : list out_line) (m : Z) : Prop :=
  m ∈ cumulative out ∧ ∀ z, z ∈ cumulative out → z ≤ m.

(** ** Sample listings *)

(** An instruction line as [avr-objdump] writes it. *)
Definition mk_line (addr byts opc rest : string) : string :=
  "    " +:+ addr +:+ ":" +:+ tab +:+ byts +:+ tab +:+ opc +:+ tab +:+ rest.

Definition push_r28 : string := mk_line "5748" "cf 93       " "push" "r28".
Definition push_r29 : string := mk_line "574a" "df 93       " "push" "r29".
Definition push_r17 : string := mk_line "5746" "1f 93       " "push" "r17".
Definition in_r28 : string :=
  mk_line "574c" "cd b7       " "in" ("r28, 0x3d" +:+ tab +:+ "; 61").
Definition in_r29 : string :=
  mk_line "574e" "de b7       " "in" ("r29, 0x3e" +:+ tab +:+ "; 62").
Definition sbiw_r28 : string :=
  mk_line "5750" "2e 97       " "sbiw" ("r28, 0x0e" +:+ tab +:+ "; 14").
Definition sbiw_r26 : string := mk_line "5752" "11 97       " "sbiw" "r26, 0x01".
Definition movw_r24 : string := mk_line "9f6" "cd 01       " "movw" "r24, r26".

(** The two [in] and the subtraction with other instructions between
    them, and no [push] at the head. *)
Definition scattered_mid : list string :=
  [movw_r24; in_r28; movw_r24; in_r29; movw_r24].
Definition scattered_frame : list string := scattered_mid ++ [sbiw_r28].
Definition rcall_free : string :=
  mk_line "9f8" "20 df       " "rcall" (".-448    " +:+ tab +:+ "; 0x83a <free>").
Definition rjmp_malloc : string :=
  mk_line "9fa" "9e ce       " "rjmp" (".-708    " +:+ tab +:+ "; 0x738 <malloc>").
Definition icall_line : string := "    9fc:" +:+ tab +:+ "09 95       " +:+ tab +:+ "icall".
Definition ret_line : string := "    9fe:" +:+ tab +:+ "08 95       " +:+ tab +:+ "ret".
(** A [rcall] line with nothing after the opcode. *)
Definition rcall_bare : string := "    9f8:" +:+ tab +:+ "20 df       " +:+ tab +:+ "rcall".
(** A [rcall] whose target the disassembler did not resolve. *)
Definition rcall_unresolved : string := mk_line "9f8" "20 df       " "rcall" ".-448".

(** The listing of two functions that call each other. *)
Definition cycle_listing : list (list string) :=
  [ ["00000100 <A>:";
     mk_line "100" "cf 93       " "push" "r28";
     mk_line "102" "7e d0       " "rcall" (".+252    " +:+ tab +:+ "; 0x200 <B>");
     "     104:" +:+ tab +:+ "08 95       " +:+ tab +:+ "ret"];
    ["00000200 <B>:";
     mk_line "200" "cf 93       " "push" "r28";
     mk_line "202" "7e df       " "rcall" (".-260    " +:+ tab +:+ "; 0x100 <A>");
     "     204:" +:+ tab +:+ "08 95       " +:+ tab +:+ "ret"] ].

(** The [Function]s of [cycle_listing]. *)
Definition cycle_A : Function :=
  {| _name := "A"; _addr := 256; _body := drop 1 (cycle_listing !!! 0%nat);
     _callees := {["B"]}; _stacksize := 1 |}.
Definition cycle_B : Function :=
  {| _name := "B"; _addr := 512; _body := drop 1 (cycle_listing !!! 1%nat);
     _callees := {["A"]}; _stacksize := 1 |}.
Definition cycle_funcs : gmap string Function :=
  <["B" := cycle_B]> (<["A" := cycle_A]> ∅).

(** A [Function] of the given name, stack size and callees, for the
    examples that need no listing. *)
Definition stub (name : string) (stacksize : Z) (callees : list string)
  : Function :=
  {| _name := name; _addr := 0; _body := []; _callees := list_to_set callees;
     _stacksize := stacksize |}.

(** The index of the example A -> B -> C with stack sizes 10, 5 and 3. *)
Definition abc_funcs : gmap string Function :=
  <["A" := stub "A" 10 ["B"]]>
    (<["B" := stub "B" 5 ["C"]]> (<["C" := stub "C" 3 []]> ∅)).

(** One iteration order of the callee sets. *)
Definition callees_elements (f : Function) : list string :=
  elements (_callees f).

(** The reverse order. *)
Definition callees_reversed (f : Function) : list string :=
  reverse (elements (_callees f)).

(** What the walk of [cycle_funcs] from ["A"] prints: the nodes A, B, A,
    ... at the levels 0 to 21, each with own size 1, then the marker of the
    depth cap. *)
Definition cycle_out : list out_line :=
  ((λ i, Node (Z.of_nat (S i)) 1 i (if Nat.even i then "A" else "B"))
     <$> seq 0 22)
  ++ [NestedTooDeeply 21].

(** An index in which [main] has two callees. *)
Definition fork_funcs : gmap string Function :=
  <["main" := stub "main" 3 ["f"; "g"]]>
    (<["f" := stub "f" 4 []]> (<["g" := stub "g" 13 []]> ∅)).

(** An index with a function that calls itself. *)
Definition rec_funcs : gmap string Function :=
  <["fact" := stub "fact" 4 ["fact"; "mul"]]> (<["mul" := stub "mul" 2 []]> ∅).

(** A listing in which [F] calls [G] and itself, and [G] and [H] call each
    other. *)
Definition selfrec_listing : list (list string) :=
  [ ["00000100 <F>:";
     mk_line "100" "cf 93       " "push" "r28";
     mk_line "102" "7e d0       " "rcall" (".+252    " +:+ tab +:+ "; 0x200 <G>");
     mk_line "104" "fd df       " "rcall" (".-6      " +:+ tab +:+ "; 0x100 <F>");
     "     106:" +:+ tab +:+ "08 95       " +:+ tab +:+ "ret"];
    ["00000200 <G>:";
     mk_line "200" "cf 93       " "push" "r28";
     mk_line "202" "7e d0       " "rcall" (".+252    " +:+ tab +:+ "; 0x300 <H>");
     "     204:" +:+ tab +:+ "08 95       " +:+ tab +:+ "ret"];
    ["00000300 <H>:";
     mk_line "300" "cf 93       " "push" "r28";
     mk_line "302" "7e df       " "rcall" (".-260    " +:+ tab +:+ "; 0x200 <G>");
     "     304:" +:+ tab +:+ "08 95       " +:+ tab +:+ "ret"] ].

(** The [Function]s of [selfrec_listing]. *)
Definition selfrec_F : Function :=
  {| _name := "F"; _addr := 256; _body := drop 1 (selfrec_listing !!! 0%nat);
     _callees := {["G"; "F"]}; _stacksize := 1 |}.
Definition selfrec_G : Function :=
  {| _name := "G"; _addr := 512; _body := drop 1 (selfrec_listing !!! 1%nat);
     _callees := {["H"]}; _stacksize := 1 |}.
Definition selfrec_H : Function :=
  {| _name := "H"; _addr := 768; _body := drop 1 (selfrec_listing !!! 2%nat);
     _callees := {["G"]}; _stacksize := 1 |}.
Definition selfrec_funcs : gmap string Function :=
  <["H" := selfrec_H]> (<["G" := selfrec_G]> (<["F" := selfrec_F]> ∅)).

(** An iteration order of the callee sets in which [G] comes before [F]. *)
Definition callees_G_first (f : Function) : list string :=
  filter (λ c, c = "G") (elements (_callees f))
  ++ filter (λ c, c ≠ "G") (elements (_callees f)).

(** What the walk of [selfrec_funcs] from ["F"] prints on the way down:
    the nodes F, G, H, G, ... at the levels 0 to 21, each with own size 1,
    then the marker of the depth cap. *)
Definition selfrec_out : list out_line :=
  ((λ i, Node (Z.of_nat (S i)) 1 i
           (if bool_decide (i = 0%nat) then "F"
            else if Nat.even i then "H" else "G"))
     <$> seq 0 22)
  ++ [NestedTooDeeply 21].



(** ** Definitions for the further properties *)

(** The texts a pattern matches in full. *)
Inductive matches : regex → string → Prop :=
| matches_eps : matches Eps ""
| matches_chr c : matches (Chr c) (String c "")
| matches_cls (p : ascii → bool) c : p c = true → matches (Cls p) (String c "")
| matches_seq r1 r2 s1 s2 :
    matches r1 s1 → matches r2 s2 → matches (Seq r1 r2) (s1 +:+ s2)
| matches_star_nil p : matches (Star p) ""
| matches_star_cons (p : ascii → bool) c s :
    p c = true → matches (Star p) s → matches (Star p) (String c s)
| matches_opt_none r : matches (Opt r) ""
| matches_opt_some r s : matches r s → matches (Opt r) s
| matches_grp n r s : matches r s → matches (Grp n r) s.

(** The patterns of the groups named [n] in [r]. *)
Fixpoint group_pats (r : regex) (n : string) : list regex :=
  match r with
  | Grp n' r' => (if bool_decide (n = n') then [r'] else []) ++ group_pats r' n
  | Seq r1 r2 => group_pats r1 n ++ group_pats r2 n
  | Opt r' => group_pats r' n
  | _ => []
  end.

(** Every character of [s] is in the class [p]. *)
Fixpoint string_forall (p : ascii → bool) (s : string) : bool :=
  match s with
  | EmptyString => true
  | String c s' => p c && string_forall p s'
  end.

(** A candidate call edge with nothing after the opcode: the lines on
    which [analyse_call] reaches [rest_pat.match(None)]. *)
Definition bare_candidate (line : string) (is_last : bool) : Prop :=
  ∃ opc,
    instr_line_match (strip line) = Some (opc, None)
    ∧ (opc = "call" ∨ opc = "rcall"
       ∨ (is_last = true ∧ (opc = "jmp" ∨ opc = "rjmp"))).

(** The length of the run of [push] at the head of a list of opcodes. *)
Fixpoint leading_pushes (opcs : list string) : nat :=
  match opcs with
  | opc :: opcs' =>
      if bool_decide (opc = "push") then S (leading_pushes opcs') else O
  | [] => O
  end.

(** A header line and a block for the examples. *)
Definition realloc_header : string := "00000978 <realloc>:".
Definition realloc_block : list string :=
  [realloc_header; push_r28; push_r29; rcall_free; rjmp_malloc].

(** The index of three blocks, two of them without header. *)
Definition unknown_funcs : gmap string Function :=
  <["unknown" := {| _name := "unknown"; _addr := 0;
                    _body := [rcall_free; ret_line];
                    _callees := {["free"]}; _stacksize := 0 |}]>
    (<["realloc" := {| _name := "realloc"; _addr := 2424;
                       _body := drop 1 realloc_block;
                       _callees := {["free"; "malloc"]}; _stacksize := 2 |}]> ∅).

(** ** get_funcs *)

Definition CR : ascii := "013"%char.

(** The look-ahead of [symbol_pat], [(?=[0-9a-f]+ )]: a run of
    hexadecimal digits and a space come next. *)
Definition symbol_ahead (s : string) : bool :=
  bool_decide (is_Some (re_match (cat [Plus is_hex; Chr " "]) s)).

(** [symbol_pat.split(blob)] for [symbol_pat = \n\n(?=[0-9a-f]+ )]: the
    text is cut at every pair of line feeds that an address follows; the
    pair is dropped, the address starts the next chunk.  The result is
    never empty. *)
Fixpoint symbol_split (blob : string) : list string :=
  match blob with
  | EmptyString => [""]
  | String c s' =>
      let go_on :=
        match symbol_split s' with
        | chunk :: chunks => String c chunk :: chunks
        | [] => [String c ""]
        end in
      match s' with
      | String c' rest =>
          if bool_decide (c = LF) && bool_decide (c' = LF) && symbol_ahead rest
          then "" :: symbol_split rest
          else go_on
      | EmptyString => go_on
      end
  end.

(** [s.splitlines()]: the lines of [s], cut at LF, CR and CR LF; a line
    break at the very end opens no further line.  (Python 3 also cuts at
    VT, FF, 0x1c to 0x1e and line separators beyond ASCII, which the text
    of a listing does not hold.) *)
Fixpoint splitlines (s : string) : list string :=
  match s with
  | EmptyString => []
  | String c s' =>
      if bool_decide (c = LF) then "" :: splitlines s'
      else if bool_decide (c = CR) then
        match s' with
        | String c' s'' =>
            if bool_decide (c' = LF) then "" :: splitlines s''
            else "" :: splitlines s'
        | EmptyString => "" :: splitlines s'
        end
      else
        match splitlines s' with
        | l :: ls => String c l :: ls
        | [] => [String c ""]
        end
  end.

(** [get_funcs(args, blob)], up to the [map]: the chunks of the listing,
    each cut into lines.  [process_lss] makes the [Function]s of them. *)
Definition get_funcs (blob : string) : list (list string) :=
  splitlines <$> symbol_split blob.

(** The separator that [symbol_pat] takes out. *)
Definition blank_line : string := String LF (String LF "").

(** A character that ends no line. *)
Definition is_inline (c : ascii) : bool :=
  negb (bool_decide (c = LF)) && negb (bool_decide (c = CR)).

(** A listing of two symbols, as text. *)
Definition nl : string := String LF "".
Definition sample_blob : string :=
  nl +:+ "blink.elf:     file format elf32-avr" +:+ nl +:+ nl
  +:+ "Disassembly of section .text:" +:+ nl +:+ nl
  +:+ "00000100 <A>:" +:+ nl
  +:+ mk_line "100" "cf 93       " "push" "r28" +:+ nl
  +:+ mk_line "102" "7e d0       " "rcall" (".+252    " +:+ tab +:+ "; 0x200 <B>")
  +:+ nl +:+ "     104:" +:+ tab +:+ "08 95       " +:+ tab +:+ "ret" +:+ nl
  +:+ nl
  +:+ "00000200 <B>:" +:+ nl
  +:+ mk_line "200" "cf 93       " "push" "r28" +:+ nl
  +:+ mk_line "202" "df 93       " "push" "r29" +:+ nl
  +:+ "     204:" +:+ tab +:+ "08 95       " +:+ tab +:+ "ret" +:+ nl.

(** ** The lines of a walk *)

(** The level at which a line was printed. *)
Definition level_of (l : out_line) : nat :=
  match l with
  | Node _ _ level _ => level
  | NestedTooDeeply level => level
  | RecursiveCall level _ => level
  end.

(** The stack size of a name: that of its [Function], 0 for a name that
    is not in [all_funcs]. *)
Definition own_stacksize (all_funcs : gmap string Function)
    (funcname : string) : Z :=
  from_option _stacksize 0 (all_funcs !! funcname).

(** A line, and a walk, with [d] more bytes on the stack at the start. *)
Definition shift (d : Z) (l : out_line) : out_line :=
  match l with
  | Node stacksize my_stacksize level funcname =>
      Node (stacksize + d) my_stacksize level funcname
  | _ => l
  end.

Definition shifted (d : Z) (w : walked) : walked :=
  (shift d <$> w.1, fmap (M:=result) (fmap (M:=option) (λ n, n + d)) w.2).

(** The cumulative sizes on the lines of the nodes at the levels up to
    [cap]. *)
Definition cumulative_upto (cap : nat) (out : list out_line) : list Z :=
  omap (λ l, match l with
             | Node stacksize _ level _ =>
                 if bool_decide (level ≤ cap)%nat then Some stacksize else None
             | _ => None
             end) out.

(** The first line of a call of the walker. *)
Definition node_line (all_funcs : gmap string Function) (funcname : string)
    (stacksize : Z) (level : nat) : out_line :=
  Node (stacksize + own_stacksize all_funcs funcname)
       (own_stacksize all_funcs funcname) level funcname.

(** What a line says agrees with [all_funcs], and the line is at one of
    the levels [lo] to [hi]. *)
Definition line_ok (all_funcs : gmap string Function) (lo hi : nat)
    (l : out_line) : Prop :=
  (lo ≤ level_of l ≤ hi)%nat
  ∧ match l with
    | Node _ my_stacksize _ funcname =>
        my_stacksize = own_stacksize all_funcs funcname
    | NestedTooDeeply level => (20 < level)%nat
    | RecursiveCall level funcname =>
        (level ≤ 20)%nat ∧ is_Some (all_funcs !! funcname)
    end.

(** ** __str__ *)

(** A hexadecimal digit, lower case. *)
Definition hex_digit (d : Z) : ascii :=
  ascii_of_N (Z.to_N (if bool_decide (d < 10) then d + 48 else d + 87)).

(** The digits of [n], most significant first, before [acc]. *)
Fixpoint hex_go (fuel : nat) (n : Z) (acc : string) : string :=
  match fuel with
  | O => acc
  | S fuel' =>
      if bool_decide (n ≤ 0) then acc
      else hex_go fuel' (n / 16) (String (hex_digit (n mod 16)) acc)
  end.

(** [%x] of a number that is not negative. *)
Definition hex (n : Z) : string :=
  if bool_decide (n ≤ 0) then "0"
  else hex_go (S (Z.to_nat (Z.log2 n))) n "".

(** [%04x]: the sign of a negative number, then the digits with zeros
    before them up to a width of 4, sign included. *)
Definition fmt_04x (n : Z) : string :=
  let sign := if bool_decide (n < 0) then "-" else "" in
  let digits := hex (Z.abs n) in
  sign
  +:+ repeat_str "0" (4 - String.length sign - String.length digits)
  +:+ digits.

(** [str(f)]: ["<Function name=%(name)s addr=0x%(addr)04x>"]. *)
Definition Function_str (f : Function) : string :=
  "<Function name=" +:+ _name f +:+ " addr=0x" +:+ fmt_04x (_addr f) +:+ ">".

(** ** dump_funcs *)

(** [dump_funcs(args, funcs)], as the texts of its [print] calls: for
    every function its [str], and, when it has callees, one text with a
    callee per line, each after [>>] and a TAB. *)
Definition dump_funcs (callees : Function → list string)
    (funcs : list Function) : list string :=
  f ← funcs;
  Function_str f ::
    (if bool_decide (0 < length (callees f))%nat
     then [">>" +:+ tab +:+ String.concat (nl +:+ ">>" +:+ tab) (callees f)]
     else []).

(** What the calls of [print] write: every text and a line feed. *)
Definition printed (texts : list string) : string :=
  foldr (λ t out, t +:+ nl +:+ out) "" texts.

(** ** Lemmas on the matcher *)

Lemma star_inv {A} p s (k : string → option A) x :
  star p s k = Some x → ∃ s', k s' = Some x.
Proof.
  induction s as [|c s IH]; simpl; [eauto|].
  destruct (p c); [|eauto].
  destruct (star p s k) eqn:E; [|eauto].
  intros [= ->]. auto.
Qed.

Lemma rmatch_inv {A} r : ∀ s g (k : string → groups → option A) x,
  rmatch r s g k = Some x →
  ∃ s' g', k s' g' = Some x
    ∧ ∀ n, binds r n = true ∨ is_Some (g !! n) → is_Some (g' !! n).
Proof.
  induction r as [|c|p|r1 IH1 r2 IH2|p|r IH|n r IH]; intros s g k x; simpl.
  - intros H. exists s, g. split; [done|]. intros n [?|?]; done.
  - destruct s as [|c' s]; [done|]. case_bool_decide; [|done].
    intros Hk. exists s, g. split; [done|]. intros n [?|?]; done.
  - destruct s as [|c' s]; [done|]. destruct (p c'); [|done].
    intros H. exists s, g. split; [done|]. intros n [?|?]; done.
  - intros H. apply IH1 in H as (s1 & g1 & H1 & Hg1).
    apply IH2 in H1 as (s2 & g2 & H2 & Hg2).
    exists s2, g2. split; [done|]. intros n [Hn|Hn].
    + apply orb_true_iff in Hn as [Hn|Hn]; auto.
    + auto.
  - intros H. apply star_inv in H as [s' H].
    exists s', g. split; [done|]. intros n [?|?]; done.
  - destruct (rmatch r s g k) eqn:E.
    + intros [= ->]. apply IH in E as (s' & g' & H & Hg).
      exists s', g'. split; [done|]. intros n [?|?]; [done|auto].
    + intros H. exists s, g. split; [done|]. intros n [?|?]; done.
  - intros H. apply IH in H as (s' & g' & H' & Hg).
    eexists _, _. split; [exact H'|]. intros m [Hm|Hm].
    + apply orb_true_iff in Hm as [Hm|Hm].
      * apply bool_decide_eq_true in Hm as ->. rewrite lookup_insert_eq. eauto.
      * destruct (decide (n = m)) as [->|Hne].
        -- rewrite lookup_insert_eq. eauto.
        -- rewrite lookup_insert_ne by done. auto.
    + destruct (decide (n = m)) as [->|Hne].
      * rewrite lookup_insert_eq. eauto.
      * rewrite lookup_insert_ne by done. auto.
Qed.

(** A match object has a value for each group that is not optional. *)
Lemma re_match_binds pat s m n :
  re_match pat s = Some m → binds pat n = true → is_Some (m !! n).
Proof.
  intros H Hn. apply rmatch_inv in H as (s' & g' & [= ->] & Hg). auto.
Qed.

Lemma first_line_match_None s :
  first_line_match s = None ↔ re_match first_line_pat s = None.
Proof.
  unfold first_line_match. destruct (re_match first_line_pat s) as [m|] eqn:E;
    simpl; [|done].
  destruct (re_match_binds _ _ _ "name" E eq_refl) as [x ->].
  destruct (re_match_binds _ _ _ "addr" E eq_refl) as [y ->]. done.
Qed.

Lemma instr_line_match_None s :
  instr_line_match s = None ↔ re_match instr_line_pat s = None.
Proof.
  unfold instr_line_match. destruct (re_match instr_line_pat s) as [m|] eqn:E;
    simpl; [|done].
  destruct (re_match_binds _ _ _ "opc" E eq_refl) as [x ->]. done.
Qed.

Lemma rest_match_None s :
  rest_match s = None ↔ re_match rest_pat s = None.
Proof.
  unfold rest_match. destruct (re_match rest_pat s) as [m|] eqn:E;
    simpl; [|done].
  destruct (re_match_binds _ _ _ "name" E eq_refl) as [x ->]. done.
Qed.

(** The lines of the comments in the script. *)
Example instr_line_rcall :
  instr_line_match (strip rcall_free)
  = Some ("rcall", Some (".-448    " +:+ tab +:+ "; 0x83a <free>")).
Proof. vm_compute. reflexivity. Qed.

Example instr_line_two_byte_pairs :
  instr_line_match
    (strip (mk_line "a08" "e0 91 f9 04 " "lds" "r30, 0x04F9"))
  = Some ("lds", Some "r30, 0x04F9").
Proof. vm_compute. reflexivity. Qed.

Example instr_line_no_rest :
  instr_line_match (strip ret_line) = Some ("ret", None).
Proof. vm_compute. reflexivity. Qed.

Example rest_match_free :
  rest_match (".-448    " +:+ tab +:+ "; 0x83a <free>") = Some "free".
Proof. vm_compute. reflexivity. Qed.

Example first_line_realloc :
  first_line_match "00000978 <realloc>:" = Some ("realloc", "00000978").
Proof. vm_compute. reflexivity. Qed.

(** ** The stack-frame estimator *)

Lemma elem_of_pair {A} (x a b : A) : x ∈ [a; b] ↔ x = a ∨ x = b.
Proof. rewrite !elem_of_cons, elem_of_nil. tauto. Qed.

Lemma elem_of_triple {A} (x a b c : A) : x ∈ [a; b; c] ↔ x = a ∨ x = b ∨ x = c.
Proof. rewrite !elem_of_cons, elem_of_nil. tauto. Qed.

Lemma count_pushes_line_None s b :
  opcode b = None → count_pushes_line s b = Ok (Next s).
Proof.
  unfold opcode, count_pushes_line.
  destruct (instr_line_match (strip b)) as [[opc rest]|]; [done|done].
Qed.

Lemma count_pushes_line_push s b :
  opcode b = Some "push" → done_pushes s = false →
  count_pushes_line s b
  = Ok (Next {| count := count s + 1; done_pushes := false; nr_in := nr_in s |}).
Proof.
  unfold opcode, count_pushes_line.
  destruct (instr_line_match (strip b)) as [[opc rest]|]; [|done].
  intros [= ->] ->. reflexivity.
Qed.

(** Once [done_pushes] is set, every instruction but [in], [sbiw] and
    [subi] leaves the variables as they are. *)
Lemma count_pushes_line_other s b opc :
  opcode b = Some opc → done_pushes s = true →
  opc ≠ "in" → opc ≠ "sbiw" → opc ≠ "subi" →
  count_pushes_line s b = Ok (Next s).
Proof.
  unfold opcode, count_pushes_line.
  destruct (instr_line_match (strip b)) as [[opc' rest]|]; [|done].
  intros [= ->] Hd Hin Hsbiw Hsubi. rewrite Hd. simpl.
  rewrite (bool_decide_eq_false_2 (opc = "in")) by done.
  rewrite andb_false_r.
  rewrite (bool_decide_eq_false_2 (opc ∈ ["sbiw"; "subi"]))
    by (rewrite elem_of_pair; tauto).
  rewrite andb_false_r. destruct s; simpl in *; by subst.
Qed.

Lemma count_pushes_loop_app body1 : ∀ s body2,
  count_pushes_loop s (body1 ++ body2)
  = c ← count_pushes_loop s body1;
    match c with
    | Next s' => count_pushes_loop s' body2
    | Break s' => Ok (Break s')
    end.
Proof.
  induction body1 as [|b body1 IH]; intros s body2; simpl; [done|].
  destruct (count_pushes_line s b) as [[s'|s']|e]; simpl; [|done|done].
  apply IH.
Qed.

Lemma count_pushes_loop_pushes body : ∀ s,
  Forall (λ b, opcode b = Some "push") body → done_pushes s = false →
  count_pushes_loop s body
  = Ok (Next {| count := count s + Z.of_nat (length body);
                done_pushes := false; nr_in := nr_in s |}).
Proof.
  induction body as [|b body IH]; intros s Hall Hd; simpl.
  - rewrite Z.add_0_r. destruct s; simpl in *; by subst.
  - inversion Hall as [|? ? Hb Hall']; subst.
    rewrite (count_pushes_line_push _ _ Hb Hd). simpl.
    rewrite IH by done. simpl. do 3 f_equal. lia.
Qed.

Lemma count_pushes_line_in s b :
  opcode b = Some "in" → nr_in s < 2 →
  count_pushes_line s b
  = Ok (Next {| count := count s; done_pushes := true; nr_in := nr_in s + 1 |}).
Proof.
  unfold opcode, count_pushes_line.
  destruct (instr_line_match (strip b)) as [[opc rest]|]; [|done].
  intros [= ->] Hlt. rewrite andb_false_r. simpl.
  apply Z.ltb_lt in Hlt. by rewrite Hlt.
Qed.

Lemma count_pushes_line_sub s b opc rest tok toks V :
  instr_line_match (strip b) = Some (opc, Some rest) →
  opc = "sbiw" ∨ opc = "subi" → nr_in s = 2 →
  split rest = "r28," :: tok :: toks → int16 tok = Ok V →
  count_pushes_line s b
  = Ok (Break {| count := count s + V; done_pushes := true; nr_in := 2 |}).
Proof.
  intros Hm Hopc Hin Hsplit Hint. unfold count_pushes_line.
  rewrite Hm, Hin, Hsplit. simpl. rewrite Hint.
  by destruct Hopc as [-> | ->], (done_pushes s).
Qed.

(** An instruction that is neither a counted [push] nor a subtraction
    from [r28] after two [in]: the count stays, [done_pushes] is set, and
    an [in] is counted while fewer than two were seen. *)
Lemma count_pushes_line_keeps s b opc rest :
  instr_line_match (strip b) = Some (opc, rest) →
  ¬ (done_pushes s = false ∧ opc = "push") →
  (nr_in s = 2 → opc = "sbiw" ∨ opc = "subi" →
   ∃ r v0 vs, rest = Some r ∧ split r = v0 :: vs ∧ v0 ≠ "r28,") →
  ∃ s', count_pushes_line s b = Ok (Next s')
    ∧ count s' = count s ∧ done_pushes s' = true
    ∧ nr_in s' = (if decide (opc = "in" ∧ nr_in s < 2) then nr_in s + 1
                  else nr_in s).
Proof.
  unfold count_pushes_line. intros -> Hpush Hsub.
  destruct (negb (done_pushes s) && bool_decide (opc = "push")) eqn:E1.
  { apply andb_true_iff in E1 as [Hd Ho]. apply negb_true_iff in Hd.
    apply bool_decide_eq_true in Ho. by destruct Hpush. }
  simpl.
  destruct ((nr_in s <? 2) && bool_decide (opc = "in")) eqn:E2.
  { apply andb_true_iff in E2 as [Hlt Ho]. apply Z.ltb_lt in Hlt.
    apply bool_decide_eq_true in Ho.
    eexists. split; [done|]. simpl. by rewrite decide_True. }
  assert (Hnin : ¬ (opc = "in" ∧ nr_in s < 2)).
  { intros [-> Hlt]. apply Z.ltb_lt in Hlt. by rewrite Hlt in E2. }
  destruct ((nr_in s =? 2) && bool_decide (opc ∈ ["sbiw"; "subi"])) eqn:E3.
  - apply andb_true_iff in E3 as [Heq Ho]. apply Z.eqb_eq in Heq.
    apply bool_decide_eq_true, elem_of_pair in Ho.
    destruct (Hsub Heq Ho) as (r & v0 & vs & -> & Hsplit & Hv0).
    rewrite Hsplit. simpl. rewrite bool_decide_eq_false_2 by done.
    eexists. split; [done|]. simpl. by rewrite decide_False.
  - eexists. split; [done|]. simpl. by rewrite decide_False.
Qed.

Lemma ins_cons b body :
  ins (b :: body)
  = if decide (opcode b = Some "in") then S (ins body) else ins body.
Proof.
  unfold ins, opcodes. simpl. destruct (opcode b) as [opc|]; simpl.
  - rewrite filter_cons. repeat case_decide; by simplify_eq/=.
  - done.
Qed.

Lemma count_pushes_loop_zero body : ∀ s,
  count s = 0 → 0 ≤ nr_in s →
  (done_pushes s = false → head (opcodes body) ≠ Some "push") →
  (∀ pre b post opc rest, body = pre ++ b :: post →
     instr_line_match (strip b) = Some (opc, rest) →
     opc = "sbiw" ∨ opc = "subi" →
     nr_in s + Z.of_nat (ins pre) < 2
     ∨ ∃ r v0 vs, rest = Some r ∧ split r = v0 :: vs ∧ v0 ≠ "r28,") →
  ∃ s', count_pushes_loop s body = Ok (Next s') ∧ count s' = 0.
Proof.
  induction body as [|b body IH]; intros s Hc Hn Hhead Hsub; simpl; [eauto|].
  destruct (instr_line_match (strip b)) as [[opc rest]|] eqn:Hm.
  - assert (Hopc : opcode b = Some opc) by (unfold opcode; by rewrite Hm).
    destruct (count_pushes_line_keeps s b opc rest Hm)
      as (s' & -> & Hc' & Hd' & Hn').
    { intros [Hd ->]. apply (Hhead Hd). unfold opcodes. simpl. by rewrite Hopc. }
    { intros Heq Ho.
      destruct (Hsub [] b body opc rest eq_refl Hm Ho) as [Hlt|?]; [|done].
      unfold ins in Hlt. simpl in Hlt. lia. }
    simpl. apply IH.
    + congruence.
    + rewrite Hn'. case_decide; lia.
    + by rewrite Hd'.
    + intros pre b' post opc' rest' -> Hm' Ho'.
      destruct (Hsub (b :: pre) b' post opc' rest' eq_refl Hm' Ho')
        as [Hlt|?]; [left|by right].
      rewrite ins_cons, Hopc in Hlt. rewrite Hn'.
      destruct (decide (opc = "in")) as [->|Hne].
      * rewrite decide_True in Hlt by done. case_decide; lia.
      * rewrite decide_False in Hlt by (by intros [= ->]).
        rewrite decide_False by (by intros [? _]). done.
  - assert (Hopc : opcode b = None) by (unfold opcode; by rewrite Hm).
    rewrite count_pushes_line_None by done. simpl.
    apply IH; try done.
    + intros Hd. specialize (Hhead Hd). unfold opcodes in *. simpl in Hhead.
      by rewrite Hopc in Hhead.
    + intros pre b' post opc' rest' -> Hm' Ho'.
      destruct (Hsub (b :: pre) b' post opc' rest' eq_refl Hm' Ho')
        as [Hlt|?]; [left|by right].
      rewrite ins_cons, Hopc in Hlt. by rewrite decide_False in Hlt.
Qed.

(** Lines on which nothing is added and nothing raised: the count stays,
    and the [in] instructions are counted up to two. *)
Lemma count_pushes_loop_keeps body : ∀ s,
  0 ≤ nr_in s ≤ 2 →
  (done_pushes s = false → head (opcodes body) ≠ Some "push") →
  (∀ pre b post opc rest, body = pre ++ b :: post →
     instr_line_match (strip b) = Some (opc, rest) →
     opc = "sbiw" ∨ opc = "subi" →
     nr_in s + Z.of_nat (ins pre) < 2
     ∨ ∃ r v0 vs, rest = Some r ∧ split r = v0 :: vs ∧ v0 ≠ "r28,") →
  ∃ s', count_pushes_loop s body = Ok (Next s') ∧ count s' = count s
        ∧ nr_in s' = Z.min 2 (nr_in s + Z.of_nat (ins body)).
Proof.
  induction body as [|b body IH]; intros s Hn Hhead Hsub; simpl.
  { exists s. split; [done|]. split; [done|]. unfold ins. simpl. lia. }
  destruct (instr_line_match (strip b)) as [[opc rest]|] eqn:Hm.
  - assert (Hopc : opcode b = Some opc) by (unfold opcode; by rewrite Hm).
    destruct (count_pushes_line_keeps s b opc rest Hm)
      as (s1 & -> & Hc1 & Hd1 & Hn1).
    { intros [Hd ->]. apply (Hhead Hd). unfold opcodes. simpl. by rewrite Hopc. }
    { intros Heq Ho.
      destruct (Hsub [] b body opc rest eq_refl Hm Ho) as [Hlt|?]; [|done].
      unfold ins in Hlt. simpl in Hlt. lia. }
    simpl. destruct (IH s1) as (s' & -> & Hc' & Hn').
    + rewrite Hn1. case_decide; lia.
    + by rewrite Hd1.
    + intros pre b' post opc' rest' -> Hm' Ho'.
      destruct (Hsub (b :: pre) b' post opc' rest' eq_refl Hm' Ho')
        as [Hlt|?]; [left|by right].
      rewrite ins_cons, Hopc in Hlt. rewrite Hn1.
      destruct (decide (opc = "in")) as [->|Hne].
      * rewrite decide_True in Hlt by done. case_decide; lia.
      * rewrite decide_False in Hlt by (by intros [= ->]).
        rewrite decide_False by (by intros [? _]). done.
    + exists s'. split; [done|]. split; [congruence|].
      rewrite Hn', Hn1, ins_cons, Hopc.
      destruct (decide (opc = "in")) as [->|Hne].
      * rewrite (decide_True (P := Some "in" = Some "in")) by done.
        destruct (decide (nr_in s < 2)) as [Hlt|Hge].
        -- rewrite decide_True by done. lia.
        -- rewrite decide_False by (by intros [_ ?]). lia.
      * rewrite (decide_False (P := Some opc = Some "in"))
          by (by intros [= ->]).
        rewrite decide_False by (by intros [? _]). done.
  - assert (Hopc : opcode b = None) by (unfold opcode; by rewrite Hm).
    rewrite count_pushes_line_None by done. simpl.
    destruct (IH s) as (s' & -> & Hc' & Hn'); [done| |
      |exists s'; split; [done|]; split; [done|];
       by rewrite Hn', ins_cons, Hopc, decide_False].
    + intros Hd. specialize (Hhead Hd). unfold opcodes in *. simpl in Hhead.
      by rewrite Hopc in Hhead.
    + intros pre b' post opc' rest' -> Hm' Ho'.
      destruct (Hsub (b :: pre) b' post opc' rest' eq_refl Hm' Ho')
        as [Hlt|?]; [left|by right].
      rewrite ins_cons, Hopc in Hlt. by rewrite decide_False in Hlt.
Qed.

(** C3, as the code has it.  [N] leading [push] lines and nothing else
    give [N]; [P] leading pushes, two [in], then a [sbiw] or [subi] whose
    operand text starts with the fields [r28,] and a hexadecimal number
    [V] give [P + V], whatever follows.  The estimator gives 0 on a body
    whose first instruction is no [push] and in which every [sbiw] or
    [subi] has fewer than two [in] before it, anywhere in the body, or has
    another first operand than [r28].  The two [in] and the subtraction
    need not follow the pushes, nor each other, directly: [P] leading
    pushes, then lines among which there are two [in] and no such
    subtraction, then the subtraction of [V] from [r28] give [P + V]
    too. *)
Theorem count_pushes_canonical :
  (∀ body,
     Forall (λ b, opcode b = Some "push") body →
     count_pushes body = Ok (Z.of_nat (length body)))
  ∧ (∀ pushes in1 in2 sub tail opc rest tok toks V,
       Forall (λ b, opcode b = Some "push") pushes →
       opcode in1 = Some "in" → opcode in2 = Some "in" →
       instr_line_match (strip sub) = Some (opc, Some rest) →
       opc = "sbiw" ∨ opc = "subi" →
       split rest = "r28," :: tok :: toks →
       int16 tok = Ok V →
       count_pushes (pushes ++ in1 :: in2 :: sub :: tail)
       = Ok (Z.of_nat (length pushes) + V))
  ∧ (∀ body,
       head (opcodes body) ≠ Some "push" →
       (∀ pre b post opc rest, body = pre ++ b :: post →
          instr_line_match (strip b) = Some (opc, rest) →
          opc = "sbiw" ∨ opc = "subi" →
          (ins pre < 2)%nat
          ∨ ∃ r v0 vs, rest = Some r ∧ split r = v0 :: vs ∧ v0 ≠ "r28,") →
       count_pushes body = Ok 0)
  ∧ (∀ pushes mid sub tail opc rest tok toks V,
       Forall (λ b, opcode b = Some "push") pushes →
       head (opcodes mid) ≠ Some "push" →
       (2 ≤ ins mid)%nat →
       (∀ pre b post opc' rest', mid = pre ++ b :: post →
          instr_line_match (strip b) = Some (opc', rest') →
          opc' = "sbiw" ∨ opc' = "subi" →
          (ins pre < 2)%nat
          ∨ ∃ r v0 vs, rest' = Some r ∧ split r = v0 :: vs ∧ v0 ≠ "r28,") →
       instr_line_match (strip sub) = Some (opc, Some rest) →
       opc = "sbiw" ∨ opc = "subi" →
       split rest = "r28," :: tok :: toks →
       int16 tok = Ok V →
       count_pushes (pushes ++ mid ++ sub :: tail)
       = Ok (Z.of_nat (length pushes) + V)).
Proof.
  split; [|split; [|split]].
  - intros body Hall. unfold count_pushes.
    by rewrite count_pushes_loop_pushes.
  - intros pushes in1 in2 sub tail opc rest tok toks V Hall H1 H2 Hm Hopc Hs Hv.
    unfold count_pushes. rewrite count_pushes_loop_app.
    rewrite count_pushes_loop_pushes by done. simpl.
    rewrite (count_pushes_line_in _ _ H1) by (simpl; lia). simpl.
    rewrite (count_pushes_line_in _ _ H2) by (simpl; lia). simpl.
    by erewrite count_pushes_line_sub by eauto.
  - intros body Hhead Hsub. unfold count_pushes.
    destruct (count_pushes_loop_zero body scan0) as (s' & -> & Hc); try done.
    + intros pre b post opc rest Hb Hm Ho.
      destruct (Hsub pre b post opc rest Hb Hm Ho) as [?|?]; [left|by right].
      simpl. lia.
    + simpl. by rewrite Hc.
  - intros pushes mid sub tail opc rest tok toks V Hall Hhead Hins Hmid Hm Hopc
      Hs Hv.
    unfold count_pushes. rewrite count_pushes_loop_app.
    rewrite count_pushes_loop_pushes by done. simpl.
    rewrite count_pushes_loop_app.
    destruct (count_pushes_loop_keeps mid
                {| count := 0 + Z.of_nat (length pushes);
                   done_pushes := false; nr_in := 0 |})
      as (s' & -> & Hc & Hn); simpl in *.
    + lia.
    + done.
    + intros pre b post opc' rest' Hb Hm' Ho'.
      destruct (Hmid pre b post opc' rest' Hb Hm' Ho') as [?|?];
        [left; lia|by right].
    + erewrite count_pushes_line_sub by (eauto; lia). simpl.
      f_equal. lia.
Qed.

(** The three shapes on lines of the script's comments; the second is the
    example of three pushes, then [in r28; in r29; sbiw r28, 0x0e]:
    3 + 14 = 17 bytes. *)
Lemma count_pushes_canonical_witness :
  (Forall (λ b, opcode b = Some "push") [push_r17; push_r28; push_r29]
   ∧ count_pushes [push_r17; push_r28; push_r29] = Ok 3)
  ∧ (opcode in_r28 = Some "in" ∧ opcode in_r29 = Some "in"
     ∧ instr_line_match (strip sbiw_r28)
       = Some ("sbiw", Some ("r28, 0x0e" +:+ tab +:+ "; 14"))
     ∧ split ("r28, 0x0e" +:+ tab +:+ "; 14") = ["r28,"; "0x0e"; ";"; "14"]
     ∧ int16 "0x0e" = Ok 14
     ∧ count_pushes
         ([push_r17; push_r28; push_r29] ++ [in_r28; in_r29; sbiw_r28])
       = Ok (3 + 14))
  ∧ (head (opcodes [movw_r24; in_r28; in_r29; sbiw_r26; ret_line])
     ≠ Some "push"
     ∧ count_pushes [movw_r24; in_r28; in_r29; sbiw_r26; ret_line] = Ok 0)
  ∧ (head (opcodes scattered_mid) ≠ Some "push" ∧ (2 ≤ ins scattered_mid)%nat
     ∧ count_pushes ([push_r28] ++ scattered_mid ++ [sbiw_r28]) = Ok (1 + 14)).
Proof.
  destruct count_pushes_canonical as (Ha & Hb & Hc & Hd).
  assert (Hpushes :
    Forall (λ b, opcode b = Some "push") [push_r17; push_r28; push_r29])
    by (repeat constructor).
  assert (Hin1 : opcode in_r28 = Some "in") by (vm_compute; reflexivity).
  assert (Hin2 : opcode in_r29 = Some "in") by (vm_compute; reflexivity).
  assert (Hsub : instr_line_match (strip sbiw_r28)
                 = Some ("sbiw", Some ("r28, 0x0e" +:+ tab +:+ "; 14")))
    by (vm_compute; reflexivity).
  assert (Hsplit : split ("r28, 0x0e" +:+ tab +:+ "; 14")
                   = ["r28,"; "0x0e"; ";"; "14"])
    by (vm_compute; reflexivity).
  assert (Hint : int16 "0x0e" = Ok 14) by (vm_compute; reflexivity).
  assert (Hhead : head (opcodes [movw_r24; in_r28; in_r29; sbiw_r26; ret_line])
                  ≠ Some "push")
    by (vm_compute; discriminate).
  split; [|split; [|split]].
  - split; [exact Hpushes|]. exact (Ha _ Hpushes).
  - repeat (split; [assumption|]).
    exact (Hb [push_r17; push_r28; push_r29] in_r28 in_r29 sbiw_r28 []
             "sbiw" _ "0x0e" _ 14 Hpushes Hin1 Hin2 Hsub (or_introl eq_refl)
             Hsplit Hint).
  - split; [exact Hhead|].
    apply (Hc [movw_r24; in_r28; in_r29; sbiw_r26; ret_line] Hhead).
    intros pre b post opc rest Hb' Hm Ho.
    assert (Hmem : b ∈ [movw_r24; in_r28; in_r29; sbiw_r26; ret_line]).
    { rewrite Hb'. apply elem_of_app. right. left. }
    repeat (apply elem_of_cons in Hmem as [-> | Hmem]);
      [.. | by apply elem_of_nil in Hmem];
      vm_compute in Hm; injection Hm as <- <-;
      try (destruct Ho; discriminate).
    right. exists "r26, 0x01", "r26,", ["0x01"].
    split; [reflexivity|]. split; [vm_compute; reflexivity|discriminate].
  - assert (Hmid : head (opcodes scattered_mid) ≠ Some "push")
      by (vm_compute; discriminate).
    assert (Hins : (2 ≤ ins scattered_mid)%nat) by (vm_compute; lia).
    split; [exact Hmid|]. split; [exact Hins|].
    assert (Hpush : Forall (λ b, opcode b = Some "push") [push_r28])
      by (repeat constructor).
    refine (Hd [push_r28] scattered_mid sbiw_r28 [] "sbiw"
              ("r28, 0x0e" +:+ tab +:+ "; 14") "0x0e" [";"; "14"] 14
              Hpush Hmid Hins _ Hsub (or_introl eq_refl) Hsplit Hint).
    intros pre b post opc rest Hb' Hm Ho.
    assert (Hmem : b ∈ scattered_mid).
    { rewrite Hb'. apply elem_of_app. right. left. }
    unfold scattered_mid in Hmem.
    repeat (apply elem_of_cons in Hmem as [-> | Hmem]);
      [.. | by apply elem_of_nil in Hmem];
      vm_compute in Hm; injection Hm as <- <-; destruct Ho; discriminate.
Defined.

(** The canonical body shows the idiom of the specification. *)
Example frame_setup_canonical :
  frame_setup [push_r17; push_r28; push_r29; in_r28; in_r29; sbiw_r28] = true
  ∧ frame_setup [in_r28; in_r29; sbiw_r28; ret_line] = true
  ∧ frame_setup [push_r28; push_r29; ret_line] = false.
Proof. repeat split; vm_compute; reflexivity. Qed.

(** C3, as stated, fails: the body [movw; in r28; movw; in r29; movw;
    sbiw r28, 0x0e] begins with no [push] and does not hold the sequence
    of two [in] and a subtraction, so it shows neither idiom; the
    estimator returns 14 for it, not 0. *)
Lemma count_pushes_neither_idiom :
  head (opcodes scattered_frame) ≠ Some "push"
  ∧ frame_setup scattered_frame = false
  ∧ count_pushes scattered_frame = Ok 14
  ∧ count_pushes scattered_frame ≠ Ok 0.
Proof.
  split; [vm_compute; discriminate|].
  split; [vm_compute; reflexivity|].
  split; [vm_compute; reflexivity|vm_compute; discriminate].
Qed.

Lemma count_pushes_line_done s b s' :
  count_pushes_line s b = Ok (Next s') →
  done_pushes s = true ∨ (∃ opc, opcode b = Some opc ∧ opc ≠ "push") →
  done_pushes s' = true.
Proof.
  unfold opcode, count_pushes_line.
  destruct (instr_line_match (strip b)) as [[opc rest]|]; simpl.
  - destruct (done_pushes s) eqn:Hd; simpl.
    + intros H _. unfold mbind, result_bind in H.
      repeat case_match; by simplify_eq/=.
    + intros H [?|(opc' & [= <-] & Hne)]; [done|].
      rewrite (bool_decide_eq_false_2 (opc = "push")) in H by done.
      unfold mbind, result_bind in H.
      repeat case_match; by simplify_eq/=.
  - intros [= <-] [?|(? & ? & _)]; done.
Qed.

Lemma count_pushes_loop_done pre : ∀ s s',
  count_pushes_loop s pre = Ok (Next s') →
  done_pushes s = true
  ∨ (∃ l opc, l ∈ pre ∧ opcode l = Some opc ∧ opc ≠ "push") →
  done_pushes s' = true.
Proof.
  induction pre as [|b pre IH]; intros s s'; simpl.
  - intros [= <-] [?|(l & ? & Hl & _)]; [done|]. by apply elem_of_nil in Hl.
  - destruct (count_pushes_line s b) as [[s1|s1]|e] eqn:E; simpl; [|done|done].
    intros Hloop Hor. apply (IH _ _ Hloop).
    destruct Hor as [Hd|(l & opc & Hl & Ho & Hne)].
    + left. apply (count_pushes_line_done _ _ _ E). by left.
    + apply elem_of_cons in Hl as [->|Hl].
      * left. apply (count_pushes_line_done _ _ _ E). right. eauto.
      * right. eauto.
Qed.

(** An instruction other than [in], [sbiw] and [subi] that stands after
    the first instruction that is no [push] can be taken out of the body:
    the scan passes it and goes on. *)
Lemma count_pushes_passes pre b post opc :
  (∃ l opc', l ∈ pre ∧ opcode l = Some opc' ∧ opc' ≠ "push") →
  opcode b = Some opc → opc ≠ "in" → opc ≠ "sbiw" → opc ≠ "subi" →
  count_pushes (pre ++ b :: post) = count_pushes (pre ++ post).
Proof.
  intros Hpre Hb Hin Hsbiw Hsubi. unfold count_pushes.
  rewrite !count_pushes_loop_app.
  destruct (count_pushes_loop scan0 pre) as [[s|s]|e] eqn:E; simpl; [|done|done].
  assert (Hd : done_pushes s = true).
  { apply (count_pushes_loop_done _ _ _ E). by right. }
  by rewrite (count_pushes_line_other _ _ _ Hb Hd Hin Hsbiw Hsubi).
Qed.




(** ** The call-target resolver *)

Lemma edge_opcode opc is_last :
  bool_decide (opc ∈ ["call"; "rcall"])
  || is_last && bool_decide (opc ∈ ["jmp"; "rjmp"]) = true
  ↔ opc = "call" ∨ opc = "rcall"
    ∨ (is_last = true ∧ (opc = "jmp" ∨ opc = "rjmp")).
Proof.
  rewrite orb_true_iff, andb_true_iff, !bool_decide_eq_true.
  rewrite !elem_of_pair. tauto.
Qed.

(** What one call of [analyse_call] that returns does to the set. *)
Lemma analyse_call_Ok callees line is_last callees' :
  analyse_call callees line is_last = Ok callees' →
  ∀ c, c ∈ callees' ↔ c ∈ callees ∨ call_edge line is_last c.
Proof.
  unfold analyse_call, call_edge.
  destruct (instr_line_match (strip line)) as [[opc rest]|] eqn:Hm.
  - destruct (bool_decide (opc ∈ ["call"; "rcall"])
              || is_last && bool_decide (opc ∈ ["jmp"; "rjmp"])) eqn:Hopc.
    + apply edge_opcode in Hopc.
      destruct rest as [rest|]; [|done].
      destruct (rest_match rest) as [callee|] eqn:Hr.
      * intros [= <-] c. rewrite elem_of_union, elem_of_singleton.
        split.
        -- intros [->|?]; [right|by left]. by exists opc, rest.
        -- intros [?|(opc' & rest' & [= <- <-] & _ & Hr')]; [by right|left].
           congruence.
      * intros [= <-] c. split; [by left|].
        intros [?|(opc' & rest' & [= <- <-] & _ & Hr')]; [done|congruence].
    + assert (Hno : ¬ (opc = "call" ∨ opc = "rcall"
                       ∨ (is_last = true ∧ (opc = "jmp" ∨ opc = "rjmp")))).
      { rewrite <- edge_opcode, Hopc. done. }
      intros Hok c.
      assert (callees' = callees) as -> by (case_bool_decide; congruence).
      split; [by left|].
      intros [?|(opc' & rest' & [= <- ?] & Hedge & _)]; [done|].
      by destruct Hno.
  - intros [= <-] c. split; [by left|]. intros [?|(? & ? & ? & _)]; done.
Qed.

Lemma analyse_calls_Ok bs : ∀ callees callees',
  analyse_calls callees bs = Ok callees' →
  ∀ c, c ∈ callees' ↔
       c ∈ callees ∨ ∃ i line, bs !! i = Some line ∧ call_edge line false c.
Proof.
  induction bs as [|b bs IH]; intros callees callees'; simpl.
  - intros [= <-] c. split; [by left|]. intros [?|(i & ? & Hi & _)]; [done|].
    by rewrite lookup_nil in Hi.
  - destruct (analyse_call callees b false) as [callees1|e] eqn:Hb; [|done].
    simpl. intros Hbs c. rewrite (IH _ _ Hbs c), (analyse_call_Ok _ _ _ _ Hb c).
    split.
    + intros [[?|?]|(i & line & ? & ?)]; [by left|right..].
      * by exists 0%nat, b.
      * by exists (S i), line.
    + intros [?|(i & line & Hi & ?)]; [by left; left|].
      destruct i as [|i]; simpl in Hi.
      * injection Hi as ->. by left; right.
      * right. by exists i, line.
Qed.

(** C5. A name is in the callee set of a body whose analysis returns
    exactly when some line of the body is a call edge to it: an
    instruction with opcode [call] or [rcall] anywhere, or [jmp] or [rjmp]
    on the last line, whose remainder carries the resolved comment with
    that name.  Each such line adds its callee; an [icall] adds nothing,
    and neither does a [jmp] or [rjmp] that is not on the last line. *)
Theorem callees_are_call_edges :
  (∀ body callees,
     find_callees body = Ok callees →
     ∀ callee, callee ∈ callees ↔
       ∃ i line, body !! i = Some line
         ∧ call_edge line (bool_decide (S i = length body)) callee)
  ∧ (∀ callees line is_last callee,
       call_edge line is_last callee →
       analyse_call callees line is_last = Ok ({[callee]} ∪ callees))
  ∧ (∀ callees line is_last rest,
       instr_line_match (strip line) = Some ("icall", rest) →
       analyse_call callees line is_last = Ok callees)
  ∧ (∀ callees line opc rest,
       instr_line_match (strip line) = Some (opc, rest) →
       opc = "jmp" ∨ opc = "rjmp" →
       analyse_call callees line false = Ok callees).
Proof.
  split; [|split; [|split]].
  - intros body callees. unfold find_callees.
    destruct (analyse_calls ∅ (removelast body)) as [callees1|e] eqn:H1; [|done].
    simpl. unfold last_item.
    destruct (last body) as [b|] eqn:Hlast; [|done]. simpl.
    apply last_Some in Hlast as [pre ->]. rewrite removelast_last in H1.
    intros H2 callee.
    rewrite (analyse_call_Ok _ _ _ _ H2 callee), (analyse_calls_Ok _ _ _ H1 callee).
    rewrite length_app. simpl. split.
    + intros [[?|(i & line & Hi & Hedge)]|Hedge]; [set_solver|..].
      * exists i, line. split; [by apply lookup_app_l_Some|].
        apply lookup_lt_Some in Hi.
        rewrite bool_decide_eq_false_2 by lia. done.
      * exists (length pre), b. split.
        -- by rewrite list_lookup_middle.
        -- rewrite bool_decide_eq_true_2 by lia. done.
    + intros (i & line & Hi & Hedge).
      destruct (decide (i < length pre)%nat) as [Hlt|Hge].
      * left; right. exists i, line. rewrite lookup_app_l in Hi by done.
        split; [done|]. by rewrite bool_decide_eq_false_2 in Hedge by lia.
      * right. assert (i = length pre) as ->.
        { apply lookup_lt_Some in Hi. rewrite length_app in Hi. simpl in Hi. lia. }
        rewrite list_lookup_middle in Hi by done. injection Hi as <-.
        by rewrite bool_decide_eq_true_2 in Hedge by lia.
  - intros callees line is_last callee (opc & rest & Hm & Hopc & Hr).
    unfold analyse_call. rewrite Hm.
    apply edge_opcode in Hopc. rewrite Hopc. by rewrite Hr.
  - intros callees line is_last rest Hm. unfold analyse_call. rewrite Hm.
    by destruct is_last.
  - intros callees line opc rest Hm Hopc. unfold analyse_call. rewrite Hm.
    by destruct Hopc as [-> | ->].
Qed.

Lemma callees_are_call_edges_witness :
  (find_callees [push_r28; rjmp_malloc; rcall_free; icall_line; rjmp_malloc]
   = Ok {["free"; "malloc"]}
   ∧ ∀ callee, callee ∈ ({["free"; "malloc"]} : gset string) ↔
       ∃ i line,
         [push_r28; rjmp_malloc; rcall_free; icall_line; rjmp_malloc] !! i
         = Some line
         ∧ call_edge line (bool_decide (S i = 5%nat)) callee)
  ∧ (call_edge rcall_free false "free"
     ∧ analyse_call ∅ rcall_free false = Ok ({["free"]} ∪ ∅))
  ∧ (instr_line_match (strip icall_line) = Some ("icall", None)
     ∧ analyse_call {["free"]} icall_line true = Ok {["free"]})
  ∧ (instr_line_match (strip rjmp_malloc)
     = Some ("rjmp", Some (".-708    " +:+ tab +:+ "; 0x738 <malloc>"))
     ∧ analyse_call {["free"]} rjmp_malloc false = Ok {["free"]}).
Proof.
  destruct callees_are_call_edges as (H1 & H2 & H3 & H4).
  assert (Hbody :
    find_callees [push_r28; rjmp_malloc; rcall_free; icall_line; rjmp_malloc]
    = Ok {["free"; "malloc"]}) by (vm_compute; reflexivity).
  assert (Hedge : call_edge rcall_free false "free").
  { exists "rcall", (".-448    " +:+ tab +:+ "; 0x83a <free>").
    split; [vm_compute; reflexivity|]. split; [by right; left|].
    vm_compute. reflexivity. }
  assert (Hicall : instr_line_match (strip icall_line) = Some ("icall", None))
    by (vm_compute; reflexivity).
  assert (Hrjmp : instr_line_match (strip rjmp_malloc)
                  = Some ("rjmp", Some (".-708    " +:+ tab +:+ "; 0x738 <malloc>")))
    by (vm_compute; reflexivity).
  split; [|split; [|split]].
  - split; [exact Hbody|]. exact (H1 _ _ Hbody).
  - split; [exact Hedge|]. exact (H2 ∅ rcall_free false "free" Hedge).
  - split; [exact Hicall|]. exact (H3 {["free"]} icall_line true None Hicall).
  - split; [exact Hrjmp|].
    exact (H4 {["free"]} rjmp_malloc "rjmp" _ Hrjmp (or_intror eq_refl)).
Defined.

(** A candidate whose remainder is there but carries no resolved comment
    adds nothing, silently. *)
Lemma analyse_call_unresolved callees line is_last opc rest :
  instr_line_match (strip line) = Some (opc, Some rest) →
  rest_match rest = None →
  analyse_call callees line is_last = Ok callees.
Proof.
  intros Hm Hr. unfold analyse_call. rewrite Hm, Hr.
  by repeat case_match.
Qed.

(** A candidate with no remainder at all raises, whatever the set. *)
Lemma analyse_call_no_rest callees line is_last opc :
  instr_line_match (strip line) = Some (opc, None) →
  opc = "call" ∨ opc = "rcall"
  ∨ (is_last = true ∧ (opc = "jmp" ∨ opc = "rjmp")) →
  analyse_call callees line is_last = Raise TypeError.
Proof.
  intros Hm Hopc. unfold analyse_call. rewrite Hm.
  apply edge_opcode in Hopc. by rewrite Hopc.
Qed.

(** C6. The code on a [rcall] line with nothing after the opcode:
    [m2.group('rest')] is [None], [rest_pat.match(None)] raises a
    [TypeError], and the constructor of the [Function] raises with it.
    The same line with an unresolved operand adds nothing and returns. *)
Theorem analyse_call_bare_rcall :
  instr_line_match (strip rcall_bare) = Some ("rcall", None)
  ∧ analyse_call ∅ rcall_bare false = Raise TypeError
  ∧ Function_init ["00000978 <realloc>:"; push_r28; rcall_bare; ret_line]
    = Raise TypeError
  ∧ analyse_call ∅ rcall_unresolved false = Ok ∅.
Proof. repeat split; vm_compute; reflexivity. Qed.

(** ** The constructor *)

(** What [__init__] stores when it returns: the name and address of the
    header and the lines after it, or ["unknown"], 0 and all the lines. *)
Lemma Function_init_Ok lines f :
  Function_init lines = Ok f →
  ∃ l0 tl, lines = l0 :: tl ∧
    match first_line_match l0 with
    | Some (name, addr) =>
        _name f = name ∧ int16 addr = Ok (_addr f) ∧ _body f = tl
    | None => _name f = "unknown" ∧ _addr f = 0 ∧ _body f = lines
    end
    ∧ find_callees (_body f) = Ok (_callees f)
    ∧ count_pushes (_body f) = Ok (_stacksize f).
Proof.
  unfold Function_init. destruct lines as [|l0 tl]; [done|]. simpl.
  intros H. exists l0, tl. split; [done|].
  destruct (first_line_match l0) as [[name addr]|].
  - destruct (int16 addr) as [n|?]; [|done]. simpl in H. rewrite drop_0 in H.
    destruct (find_callees tl) as [cs|?] eqn:Hcs; [|done]. simpl in H.
    destruct (count_pushes tl) as [ss|?] eqn:Hss; [|done]. simpl in H.
    by injection H as <-.
  - simpl in H.
    destruct (find_callees (l0 :: tl)) as [cs|?] eqn:Hcs; [|done]. simpl in H.
    destruct (count_pushes (l0 :: tl)) as [ss|?] eqn:Hss; [|done]. simpl in H.
    by injection H as <-.
Qed.

(** The header of the script's comment, and a block without header. *)
Example Function_init_realloc :
  Function_init ["00000978 <realloc>:"; push_r28; rcall_free; ret_line]
  = Ok {| _name := "realloc"; _addr := 2424;
          _body := [push_r28; rcall_free; ret_line];
          _callees := {["free"]}; _stacksize := 1 |}.
Proof. vm_compute. reflexivity. Qed.

Example Function_init_unknown :
  Function_init [push_r28; rcall_free; ret_line]
  = Ok {| _name := "unknown"; _addr := 0;
          _body := [push_r28; rcall_free; ret_line];
          _callees := {["free"]}; _stacksize := 1 |}.
Proof. vm_compute. reflexivity. Qed.

(** A header with no line after it never makes a [Function]. *)
Lemma Function_init_no_body l0 name addr n :
  first_line_match l0 = Some (name, addr) → int16 addr = Ok n →
  Function_init [l0] = Raise IndexError.
Proof.
  intros Hm Hn. unfold Function_init. simpl. by rewrite Hm, Hn.
Qed.

(** The other ways in which the constructor raises, all in
    [count_pushes]: a [sbiw] after two [in] with no operands, with one
    operand, or with a second operand that is no hexadecimal number. *)
Example count_pushes_raises :
  count_pushes [in_r28; in_r29;
                "    5750:" +:+ tab +:+ "2e 97       " +:+ tab +:+ "sbiw"]
  = Raise AttributeError
  ∧ count_pushes [in_r28; in_r29; mk_line "5750" "2e 97       " "sbiw" "r28,"]
    = Raise IndexError
  ∧ count_pushes [in_r28; in_r29; mk_line "5750" "2e 97       " "sbiw" "r28, r1"]
    = Raise ValueError.
Proof. repeat split; vm_compute; reflexivity. Qed.

(** C7. The code on a block that is a header line and nothing else: the
    header matches, the body is empty, and [self._body[-1]] raises an
    [IndexError]; no [Function] is made.  A block of no lines fails at
    [lines[0]] in the same way. *)
Theorem Function_init_header_only :
  first_line_match "00000978 <realloc>:" = Some ("realloc", "00000978")
  ∧ Function_init ["00000978 <realloc>:"] = Raise IndexError
  ∧ Function_init [] = Raise IndexError
  ∧ process_lss ∅ [["00000978 <realloc>:"]] = Raise IndexError.
Proof. repeat split; vm_compute; reflexivity. Qed.

(** ** The call-tree walker *)

Section walker_lemmas.
Variable py : python.
Variable callees : Function → list string.
Variable all_funcs : gmap string Function.

Lemma py_max_only_TypeError this_ss max_ss :
  only_TypeError (py_max py this_ss max_ss).
Proof. intros e. destruct this_ss, py; simpl; congruence. Qed.

Lemma for_callees_total rec funcname level cs : ∀ max_ss,
  (∀ c, ∃ out r, rec c = Some (out, r) ∧ only_TypeError r) →
  ∃ out r, for_callees py rec funcname level cs max_ss = Some (out, r)
           ∧ only_TypeError r.
Proof.
  induction cs as [|c cs IH]; intros max_ss Hrec; simpl.
  - eexists _, _. split; [done|]. intros e. congruence.
  - case_bool_decide.
    + destruct (IH max_ss Hrec) as (out & r & -> & Hr). simpl. eauto.
    + destruct (Hrec c) as (out1 & r1 & -> & Hr1). simpl.
      destruct r1 as [this_ss|e]; simpl.
      * pose proof (py_max_only_TypeError this_ss max_ss) as Hmax.
        destruct (py_max py this_ss max_ss) as [max_ss'|e]; [|eauto].
        destruct (IH max_ss' Hrec) as (out2 & r2 & -> & Hr2). simpl. eauto.
      * eexists _, _. split; [done|]. intros e' [= <-]. by apply Hr1.
Qed.

(** With fuel for [21 - level] nested calls the walk returns or raises. *)
Lemma print_call_tree_rec_total fuel : ∀ funcname stacksize level,
  (21 - level ≤ fuel)%nat →
  ∃ out r,
    print_call_tree_rec py callees all_funcs fuel funcname stacksize level
    = Some (out, r) ∧ only_TypeError r.
Proof.
  induction fuel as [|fuel IH]; intros funcname stacksize level Hfuel; simpl.
  - rewrite bool_decide_eq_true_2 by lia.
    eexists _, _. split; [done|]. intros e. congruence.
  - case_bool_decide.
    { eexists _, _. split; [done|]. intros e. congruence. }
    destruct (all_funcs !! funcname) as [func|]; simpl.
    + edestruct (for_callees_total
        (λ c, print_call_tree_rec py callees all_funcs fuel c
                (stacksize + _stacksize func) (S level))
        funcname level (callees func) (stacksize + _stacksize func))
        as (out & r & -> & Hr).
      { intros c. apply IH. lia. }
      simpl. eexists _, _. split; [done|].
      intros e. destruct r; simpl; [done|]. intros [= <-]. by apply Hr.
    + eexists _, _. split; [done|]. intros e. simpl. congruence.
Qed.

Lemma for_callees_ext rec1 rec2 funcname level cs : ∀ max_ss,
  (∀ c, rec1 c = rec2 c) →
  for_callees py rec1 funcname level cs max_ss
  = for_callees py rec2 funcname level cs max_ss.
Proof.
  induction cs as [|c cs IH]; intros max_ss Hrec; simpl; [done|].
  case_bool_decide; [by rewrite IH|].
  rewrite Hrec. destruct (rec2 c) as [[out1 r1]|]; simpl; [|done].
  destruct (r1 ≫= λ this_ss, py_max py this_ss max_ss); [|done].
  by rewrite IH.
Qed.

(** More fuel than that changes nothing. *)
Lemma print_call_tree_rec_fuel fuel1 : ∀ fuel2 funcname stacksize level,
  (21 - level ≤ fuel1)%nat → (21 - level ≤ fuel2)%nat →
  print_call_tree_rec py callees all_funcs fuel1 funcname stacksize level
  = print_call_tree_rec py callees all_funcs fuel2 funcname stacksize level.
Proof.
  induction fuel1 as [|fuel1 IH]; intros [|fuel2] funcname stacksize level H1 H2;
    simpl; try (by rewrite bool_decide_eq_true_2 by lia).
  case_bool_decide; [done|].
  destruct (all_funcs !! funcname) as [func|]; simpl; [|done].
  rewrite (for_callees_ext _
    (λ c, print_call_tree_rec py callees all_funcs fuel2 c
            (stacksize + _stacksize func) (S level))); [done|].
  intros c. apply IH; lia.
Qed.

(** [print_call_tree] never runs out of fuel: every walk ends. *)
Lemma print_call_tree_total funcname stacksize level :
  ∃ out r,
    print_call_tree py callees all_funcs funcname stacksize level
    = Some (out, r) ∧ only_TypeError r.
Proof. apply print_call_tree_rec_total. lia. Qed.

(** C8. A name that is not in the index is a leaf: the walker prints its
    line with own size 0, the cumulative size unchanged, and expands
    nothing; it returns the cumulative size (after the marker and
    [None] beyond level 20, as for any name).  At the root, [main] writes
    the warning to [stderr], the line with both sizes 0 and the summary
    of 0, and ends normally. *)
Theorem absent_name_is_leaf funcname :
  all_funcs !! funcname = None →
  (∀ stacksize level,
     print_call_tree py callees all_funcs funcname stacksize level
     = Some (if bool_decide (20 < level)%nat
             then ([Node stacksize 0 level funcname; NestedTooDeeply level],
                   Ok None)
             else ([Node stacksize 0 level funcname], Ok (Some stacksize))))
  ∧ main py callees all_funcs funcname
    = Some (["ERROR: Function " +:+ dquote +:+ funcname +:+ dquote
             +:+ " not found"],
            ["  0   0 " +:+ funcname; "Deepest stacksize: 0"], Ok ()).
Proof.
  intros Hnone. split.
  - intros stacksize level. unfold print_call_tree.
    destruct (21 - level)%nat as [|fuel] eqn:Hfuel; simpl;
      rewrite Hnone; simpl; rewrite Z.add_0_r.
    + by rewrite !bool_decide_eq_true_2 by lia.
    + by rewrite !bool_decide_eq_false_2 by lia.
  - unfold main, print_call_tree. simpl. rewrite !Hnone. simpl.
    reflexivity.
Qed.
End walker_lemmas.

Lemma absent_name_is_leaf_witness :
  abc_funcs !! "printf" = None
  ∧ print_call_tree Python3 callees_elements abc_funcs "printf" 18 3
    = Some ([Node 18 0 3 "printf"], Ok (Some 18))
  ∧ main Python3 callees_elements abc_funcs "printf"
    = Some (["ERROR: Function " +:+ dquote +:+ "printf" +:+ dquote
             +:+ " not found"],
            ["  0   0 printf"; "Deepest stacksize: 0"], Ok ()).
Proof.
  assert (Habsent : abc_funcs !! "printf" = None) by (vm_compute; reflexivity).
  destruct (absent_name_is_leaf Python3 callees_elements abc_funcs "printf"
              Habsent) as [H1 H2].
  split; [exact Habsent|]. split; [apply (H1 18 3%nat)|apply H2].
Defined.

(** *** The value returned, apart from the output *)

Section walker_result.
Variable py : python.

Lemma for_callees_result rec (w : string → walked) funcname level cs :
  (∀ c, rec c = Some (w c)) →
  ∀ max_ss,
    snd <$> for_callees py rec funcname level cs max_ss
    = Some (fold_results py (snd ∘ w <$> filter (λ c, c ≠ funcname) cs) max_ss).
Proof.
  intros Hrec. induction cs as [|c cs IH]; intros max_ss; simpl; [done|].
  rewrite filter_cons. case_bool_decide as Hc.
  - rewrite decide_False by (by intros ?).
    specialize (IH max_ss).
    destruct (for_callees py rec funcname level cs max_ss) as [[out r]|];
      simpl in *; [|done].
    by injection IH as ->.
  - rewrite decide_True by done. simpl.
    rewrite Hrec. destruct (w c) as [out1 r1]. simpl.
    unfold child_max.
    destruct (r1 ≫= λ this_ss, py_max py this_ss max_ss) as [max_ss'|e]; [|done].
    specialize (IH max_ss').
    destruct (for_callees py rec funcname level cs max_ss') as [[out2 r2]|];
      simpl in *; [|done].
    by injection IH as ->.
Qed.

Lemma fold_results_perm rs1 rs2 :
  rs1 ≡ₚ rs2 → Forall only_TypeError rs1 →
  ∀ max_ss, fold_results py rs1 max_ss = fold_results py rs2 max_ss.
Proof.
  induction 1 as [|r rs1 rs2 Hperm IH|r1 r2 rs|rs1 rs2 rs3 H12 IH12 H23 IH23];
    intros Hall max_ss.
  - done.
  - simpl. inversion Hall; subst.
    destruct (child_max py r max_ss); [|done]. by apply IH.
  - inversion Hall as [|? ? H2 Hall']; subst.
    inversion Hall' as [|? ? H1 _]; subst.
    simpl. unfold child_max.
    destruct r1 as [[a|]|e1], r2 as [[b|]|e2], py; simpl; try done;
      rewrite ?(H1 _ eq_refl), ?(H2 _ eq_refl); try done.
    + by rewrite Z.max_assoc, (Z.max_comm a b), <- Z.max_assoc.
    + by rewrite Z.max_assoc, (Z.max_comm a b), <- Z.max_assoc.
  - rewrite IH12 by done. apply IH23. by rewrite <- H12.
Qed.
End walker_result.

Section order.
Variable py : python.
Variables callees1 callees2 : Function → list string.
Variable all_funcs : gmap string Function.
Hypothesis same_callees : ∀ f, callees1 f ≡ₚ callees2 f.

Lemma print_call_tree_rec_order fuel : ∀ funcname stacksize level,
  (21 - level ≤ fuel)%nat →
  snd <$> print_call_tree_rec py callees1 all_funcs fuel funcname stacksize level
  = snd <$> print_call_tree_rec py callees2 all_funcs fuel funcname stacksize level.
Proof.
  induction fuel as [|fuel IH]; intros funcname stacksize level Hfuel; simpl.
  { by rewrite bool_decide_eq_true_2 by lia. }
  case_bool_decide; [done|].
  destruct (all_funcs !! funcname) as [func|]; simpl; [|done].
  set (ss := stacksize + _stacksize func).
  set (rec1 := λ c, print_call_tree_rec py callees1 all_funcs fuel c ss (S level)).
  set (rec2 := λ c, print_call_tree_rec py callees2 all_funcs fuel c ss (S level)).
  set (w1 := λ c, default ([], Ok None) (rec1 c)).
  set (w2 := λ c, default ([], Ok None) (rec2 c)).
  assert (Hw1 : ∀ c, rec1 c = Some (w1 c) ∧ only_TypeError (snd (w1 c))).
  { intros c. unfold w1, rec1.
    destruct (print_call_tree_rec_total py callees1 all_funcs fuel c ss (S level))
      as (out & r & -> & Hr); [lia|done]. }
  assert (Hw2 : ∀ c, rec2 c = Some (w2 c)).
  { intros c. unfold w2, rec2.
    destruct (print_call_tree_rec_total py callees2 all_funcs fuel c ss (S level))
      as (out & r & -> & Hr); [lia|done]. }
  assert (Hw : ∀ c, snd (w1 c) = snd (w2 c)).
  { intros c. pose proof (IH c ss (S level) ltac:(lia)) as Hc.
    fold (rec1 c) (rec2 c) in Hc.
    rewrite (proj1 (Hw1 c)), (Hw2 c) in Hc. simpl in Hc. congruence. }
  pose proof (for_callees_result py rec1 w1 funcname level (callees1 func)
                (λ c, proj1 (Hw1 c)) ss) as H1.
  pose proof (for_callees_result py rec2 w2 funcname level (callees2 func)
                Hw2 ss) as H2.
  assert (Heq : fold_results py
                  (snd ∘ w1 <$> filter (λ c, c ≠ funcname) (callees1 func)) ss
                = fold_results py
                  (snd ∘ w2 <$> filter (λ c, c ≠ funcname) (callees2 func)) ss).
  { rewrite (fold_results_perm py _
               (snd ∘ w1 <$> filter (λ c, c ≠ funcname) (callees2 func))).
    - f_equal. apply list_fmap_ext. intros _ c _. apply Hw.
    - by rewrite (same_callees func).
    - apply Forall_fmap, Forall_forall. intros c _. apply Hw1. }
  rewrite Heq in H1.
  destruct (for_callees py rec1 funcname level (callees1 func) ss)
    as [[out1 r1]|]; [|done].
  destruct (for_callees py rec2 funcname level (callees2 func) ss)
    as [[out2 r2]|]; [|done].
  simpl in *. congruence.
Qed.
End order.

(** C10. The value the walker returns (or the exception it raises) does
    not depend on the order in which the callee sets are iterated: two
    [callees] properties that list the same sets give the same result for
    the same index and start name. *)
Theorem deepest_stacksize_order_independent py callees1 callees2 all_funcs
    funcname stacksize level :
  (∀ f, callees1 f ≡ₚ elements (_callees f)) →
  (∀ f, callees2 f ≡ₚ elements (_callees f)) →
  snd <$> print_call_tree py callees1 all_funcs funcname stacksize level
  = snd <$> print_call_tree py callees2 all_funcs funcname stacksize level.
Proof.
  intros H1 H2. apply print_call_tree_rec_order; [|lia].
  intros f. by rewrite H1, H2.
Qed.

Lemma deepest_stacksize_order_independent_witness :
  (∀ f, callees_elements f ≡ₚ elements (_callees f))
  ∧ (∀ f, callees_reversed f ≡ₚ elements (_callees f))
  ∧ snd <$> print_call_tree Python3 callees_elements fork_funcs "main" 0 0
    = snd <$> print_call_tree Python3 callees_reversed fork_funcs "main" 0 0.
Proof.
  assert (H1 : ∀ f, callees_elements f ≡ₚ elements (_callees f)) by done.
  assert (H2 : ∀ f, callees_reversed f ≡ₚ elements (_callees f)).
  { intros f. apply reverse_Permutation. }
  split; [exact H1|]. split; [exact H2|].
  exact (deepest_stacksize_order_independent Python3 callees_elements
           callees_reversed fork_funcs "main" 0 0%nat H1 H2).
Defined.

(** The two orders print the callees of [main] in different order and
    return the same 16. *)
Example fork_funcs_walks :
  print_call_tree Python3 callees_elements fork_funcs "main" 0 0
  = Some ([Node 3 3 0 "main"; Node 16 13 1 "g"; Node 7 4 1 "f"], Ok (Some 16))
  ∧ print_call_tree Python3 callees_reversed fork_funcs "main" 0 0
    = Some ([Node 3 3 0 "main"; Node 7 4 1 "f"; Node 16 13 1 "g"], Ok (Some 16)).
Proof. split; vm_compute; reflexivity. Qed.

(** *** Direct recursion *)

Section noself.
Variable py : python.
Variable callees : Function → list string.
Variable all_funcs : gmap string Function.
(** [process_lss] stores every [Function] under its own name. *)
Hypothesis keyed_by_name : ∀ name f, all_funcs !! name = Some f → _name f = name.

Lemma for_callees_noself rec1 rec2 funcname level cs :
  (∀ c, rec2 c = unmarked <$> rec1 c) →
  ∀ max_ss,
    for_callees py rec2 funcname level (filter (λ c, c ≠ funcname) cs) max_ss
    = unmarked <$> for_callees py rec1 funcname level cs max_ss.
Proof.
  intros Hrec. induction cs as [|c cs IH]; intros max_ss; simpl; [done|].
  rewrite filter_cons. case_bool_decide as Hc.
  - rewrite decide_False by (by intros ?). rewrite IH.
    by destruct (for_callees py rec1 funcname level cs max_ss) as [[out r]|].
  - rewrite decide_True by done. simpl.
    rewrite bool_decide_eq_false_2 by done. rewrite Hrec.
    destruct (rec1 c) as [[out1 r1]|]; simpl; [|done].
    destruct (r1 ≫= λ this_ss, py_max py this_ss max_ss) as [max_ss'|e]; [|done].
    rewrite IH.
    destruct (for_callees py rec1 funcname level cs max_ss') as [[out2 r2]|];
      simpl; [|done].
    unfold unmarked. simpl. by rewrite filter_app.
Qed.

Lemma print_call_tree_rec_noself fuel : ∀ funcname stacksize level,
  print_call_tree_rec py (callees_noself callees) all_funcs fuel funcname
    stacksize level
  = unmarked <$> print_call_tree_rec py callees all_funcs fuel funcname
                   stacksize level.
Proof.
  induction fuel as [|fuel IH]; intros funcname stacksize level; simpl.
  { by case_bool_decide. }
  case_bool_decide; [done|].
  destruct (all_funcs !! funcname) as [func|] eqn:Hfunc; simpl; [|done].
  unfold callees_noself at 2. rewrite (keyed_by_name _ _ Hfunc).
  rewrite (for_callees_noself
             (λ c, print_call_tree_rec py callees all_funcs fuel c
                     (stacksize + _stacksize func) (S level))).
  - by destruct (for_callees py _ funcname level (callees func) _) as [[out r]|].
  - intros c. apply IH.
Qed.

Lemma for_callees_marker rec funcname level cs : ∀ max_ss out r,
  funcname ∈ cs →
  for_callees py rec funcname level cs max_ss = Some (out, r) →
  (∃ e, r = Raise e) ∨ RecursiveCall level funcname ∈ out.
Proof.
  induction cs as [|c cs IH]; intros max_ss out r Hin; simpl.
  { by apply elem_of_nil in Hin. }
  case_bool_decide as Hc.
  - destruct (for_callees py rec funcname level cs max_ss) as [[out' r']|];
      simpl; [|done].
    intros [= <- <-]. right. left.
  - apply elem_of_cons in Hin as [->|Hin]; [done|].
    destruct (rec c) as [[out1 r1]|]; simpl; [|done].
    destruct (r1 ≫= λ this_ss, py_max py this_ss max_ss) as [max_ss'|e].
    + destruct (for_callees py rec funcname level cs max_ss')
        as [[out2 r2]|] eqn:E; simpl; [|done].
      intros [= <- <-]. destruct (IH _ _ _ Hin E) as [?|?]; [by left|right].
      apply elem_of_app. by right.
    + intros [= <- <-]. left. eauto.
Qed.

(** Where the loop over the callees meets the name of the function
    itself, it prints the marker, makes no recursive call and leaves
    [max_ss] as it is.  The walk always ends.  Leaving the self-callees
    out of every callee list changes nothing in the walk but the marker
    lines, so the same lines with the same cumulative sizes are printed
    and the same value is returned: the stack size of the function is not
    added a second time.  For a function that lists itself, the marker is
    among the lines printed (unless the [TypeError] of the depth cap ended
    the walk before the loop came to it). *)
Lemma self_recursion_not_followed funcname stacksize level :
  (∀ rec cs max_ss,
     for_callees py rec funcname level (funcname :: cs) max_ss
     = '(out, r) ← for_callees py rec funcname level cs max_ss;
       Some (RecursiveCall level funcname :: out, r))
  ∧ ∃ out r,
      print_call_tree py callees all_funcs funcname stacksize level
      = Some (out, r)
      ∧ print_call_tree py (callees_noself callees) all_funcs funcname
          stacksize level
        = Some (filter (λ l, is_marker l = false) out, r)
      ∧ (∀ f, all_funcs !! funcname = Some f → funcname ∈ callees f →
              (level ≤ 20)%nat →
              r = Raise TypeError ∨ RecursiveCall level funcname ∈ out).
Proof.
  split.
  { intros rec cs max_ss. simpl. by rewrite bool_decide_eq_true_2. }
  destruct (print_call_tree_total py callees all_funcs funcname stacksize level)
    as (out & r & Hwalk & Hr).
  exists out, r. split; [done|]. split.
  - unfold print_call_tree in *. by rewrite print_call_tree_rec_noself, Hwalk.
  - intros f Hf Hin Hlevel. unfold print_call_tree in Hwalk.
    destruct (21 - level)%nat as [|fuel] eqn:Hfuel; [lia|].
    simpl in Hwalk. rewrite bool_decide_eq_false_2 in Hwalk by lia.
    rewrite Hf in Hwalk. simpl in Hwalk.
    destruct (for_callees py _ funcname level (callees f) _)
      as [[out' r']|] eqn:E; simpl in Hwalk; [|done].
    injection Hwalk as <- <-.
    destruct (for_callees_marker _ _ _ _ _ _ _ Hin E) as [[e ->]|Hm].
    + left. simpl. f_equal. by apply (Hr e).
    + right. by right.
Qed.
End noself.

Lemma self_recursion_not_followed_witness :
  (∀ name f, rec_funcs !! name = Some f → _name f = name)
  ∧ (∀ rec cs max_ss,
       for_callees Python3 rec "fact" 0 ("fact" :: cs) max_ss
       = '(out, r) ← for_callees Python3 rec "fact" 0 cs max_ss;
         Some (RecursiveCall 0 "fact" :: out, r))
  ∧ ∃ out r,
      print_call_tree Python3 callees_elements rec_funcs "fact" 0 0
      = Some (out, r)
      ∧ print_call_tree Python3 (callees_noself callees_elements) rec_funcs
          "fact" 0 0
        = Some (filter (λ l, is_marker l = false) out, r)
      ∧ (∀ f, rec_funcs !! "fact" = Some f → "fact" ∈ callees_elements f →
              (0 ≤ 20)%nat →
              r = Raise TypeError ∨ RecursiveCall 0 "fact" ∈ out).
Proof.
  assert (Hkeys : ∀ name f, rec_funcs !! name = Some f → _name f = name).
  { intros name f. unfold rec_funcs.
    rewrite !lookup_insert_Some, lookup_empty.
    intros [[<- <-]|[_ [[<- <-]|[_ [=]]]]]; reflexivity. }
  split; [exact Hkeys|].
  exact (self_recursion_not_followed Python3 callees_elements rec_funcs Hkeys
           "fact" 0 0%nat).
Defined.

(** The stack size of a function that calls itself is counted once. *)
Example rec_funcs_walk :
  print_call_tree Python3 callees_elements rec_funcs "fact" 0 0
  = Some ([Node 4 4 0 "fact"; Node 6 2 1 "mul"; RecursiveCall 0 "fact"],
          Ok (Some 6)).
Proof. vm_compute. reflexivity. Qed.

(** C9. The code on the index of [selfrec_listing], from ["F"], whose
    callees are [G] and [F] itself.  When the set gives [G] first, the walk
    goes down G, H, G, ... to the depth cap; under Python 3 the
    [TypeError] of [max(None, 21)] leaves every call, the loop of [F]
    never comes to the name [F], and no marker of a recursion is printed,
    in the walk and in [main].  Under Python 2 the same walk goes on and
    prints the marker as its last line; when the set gives [F] first, the
    marker is printed, under Python 3 too, before the walk of [G]
    raises. *)
Theorem self_recursion_unreported :
  process_lss ∅ selfrec_listing = Ok selfrec_funcs
  ∧ callees_G_first selfrec_F = ["G"; "F"]
  ∧ print_call_tree Python3 callees_G_first selfrec_funcs "F" 0 0
    = Some (selfrec_out, Raise TypeError)
  ∧ Forall (λ l, is_marker l = false) selfrec_out
  ∧ main Python3 callees_G_first selfrec_funcs "F"
    = Some ([], render <$> selfrec_out, Raise TypeError)
  ∧ print_call_tree Python2 callees_G_first selfrec_funcs "F" 0 0
    = Some (selfrec_out ++ [RecursiveCall 0 "F"], Ok (Some 21))
  ∧ print_call_tree Python3 (reverse ∘ callees_G_first) selfrec_funcs "F" 0 0
    = Some (take 1 selfrec_out ++ RecursiveCall 0 "F" :: drop 1 selfrec_out,
            Raise TypeError).
Proof.
  split; [vm_compute; reflexivity|].
  split; [vm_compute; reflexivity|].
  split; [vm_compute; reflexivity|].
  split; [|repeat split; vm_compute; reflexivity].
  apply Forall_forall. intros l Hl. unfold selfrec_out in Hl.
  apply elem_of_app in Hl as [(i & -> & _)%list_elem_of_fmap|Hl]; [done|].
  by apply list_elem_of_singleton in Hl as ->.
Qed.

(** Every index [process_lss] builds is keyed by the names. *)
Lemma process_lss_keyed blocks : ∀ all_funcs all_funcs',
  (∀ name f, all_funcs !! name = Some f → _name f = name) →
  process_lss all_funcs blocks = Ok all_funcs' →
  ∀ name f, all_funcs' !! name = Some f → _name f = name.
Proof.
  induction blocks as [|lines blocks IH]; intros all_funcs all_funcs' Hkeys; simpl.
  - by intros [= <-].
  - destruct (Function_init lines) as [f0|e]; [|done]. simpl.
    apply IH. intros name f. rewrite lookup_insert_Some.
    intros [[<- <-]|[_ Hf]]; [done|]. by apply Hkeys.
Qed.

(** *** The maximum *)

Lemma cumulative_app out1 out2 :
  cumulative (out1 ++ out2) = cumulative out1 ++ cumulative out2.
Proof. apply omap_app. Qed.

Section maximum.
Variable py : python.
Variable callees : Function → list string.
Variable all_funcs : gmap string Function.

Lemma for_callees_max rec funcname level cs :
  (∀ c out r, rec c = Some (out, r) →
     Forall (λ l, is_too_deep l = false) out →
     ∃ m, r = Ok (Some m) ∧ is_max_of out m) →
  ∀ max_ss out r,
    for_callees py rec funcname level cs max_ss = Some (out, r) →
    Forall (λ l, is_too_deep l = false) out →
    ∃ m, r = Ok m ∧ (m = max_ss ∨ m ∈ cumulative out) ∧ max_ss ≤ m
         ∧ ∀ z, z ∈ cumulative out → z ≤ m.
Proof.
  intros Hrec. induction cs as [|c cs IH]; intros max_ss out r; simpl.
  - intros [= <- <-] _. exists max_ss. split; [done|]. split; [by left|].
    split; [lia|]. intros z Hz. by apply elem_of_nil in Hz.
  - case_bool_decide as Hc.
    + destruct (for_callees py rec funcname level cs max_ss)
        as [[out' r']|] eqn:E; simpl; [|done].
      intros [= <- <-] Hdeep. apply Forall_cons in Hdeep as [_ Hdeep].
      destruct (IH _ _ _ E Hdeep) as (m & -> & Hm & Hle & Hub).
      exists m. done.
    + destruct (rec c) as [[out1 r1]|] eqn:Ec; simpl; [|done].
      destruct (r1 ≫= λ this_ss, py_max py this_ss max_ss)
        as [max_ss'|e] eqn:Emax.
      * destruct (for_callees py rec funcname level cs max_ss')
          as [[out2 r2]|] eqn:E; simpl; [|done].
        intros [= <- <-] Hdeep. apply Forall_app in Hdeep as [Hdeep1 Hdeep2].
        destruct (Hrec _ _ _ Ec Hdeep1) as (m1 & -> & Hin1 & Hub1).
        simpl in Emax. injection Emax as <-.
        destruct (IH _ _ _ E Hdeep2) as (m & -> & Hm & Hle & Hub).
        exists m. split; [done|]. rewrite cumulative_app.
        split; [|split].
        -- destruct Hm as [->|Hm]; [|right; apply elem_of_app; by right].
           destruct (Z.max_spec m1 max_ss) as [[_ ->]|[_ ->]]; [by left|].
           right. apply elem_of_app. by left.
        -- lia.
        -- intros z [Hz|Hz]%elem_of_app; [|by apply Hub].
           specialize (Hub1 z Hz). lia.
      * intros [= <- <-] Hdeep.
        destruct (Hrec _ _ _ Ec Hdeep) as (m1 & -> & _).
        simpl in Emax. done.
Qed.

Lemma print_call_tree_rec_max fuel : ∀ funcname stacksize level out r,
  print_call_tree_rec py callees all_funcs fuel funcname stacksize level
  = Some (out, r) →
  Forall (λ l, is_too_deep l = false) out →
  ∃ m, r = Ok (Some m) ∧ is_max_of out m.
Proof.
  induction fuel as [|fuel IH]; intros funcname stacksize level out r; simpl.
  { case_bool_decide; [|done]. intros [= <- <-] Hdeep.
    apply Forall_cons in Hdeep as [_ Hdeep].
    by apply Forall_cons in Hdeep as [? _]. }
  case_bool_decide.
  { intros [= <- <-] Hdeep. apply Forall_cons in Hdeep as [_ Hdeep].
    by apply Forall_cons in Hdeep as [? _]. }
  destruct (all_funcs !! funcname) as [func|]; simpl.
  - destruct (for_callees py _ funcname level (callees func) _)
      as [[out' r']|] eqn:E; simpl; [|done].
    intros [= <- <-] Hdeep. apply Forall_cons in Hdeep as [_ Hdeep].
    destruct (for_callees_max _ _ _ _ (λ c, IH c _ _) _ _ _ E Hdeep)
      as (m & -> & Hm & Hle & Hub).
    exists m. split; [done|]. unfold is_max_of, cumulative. simpl.
    split.
    + destruct Hm as [->|Hm]; [left|by right].
    + intros z [->|Hz]%elem_of_cons; [lia|by apply Hub].
  - intros [= <- <-] _. exists (stacksize + 0). split; [done|].
    unfold is_max_of, cumulative. simpl. split; [left|].
    intros z [->|Hz]%elem_of_cons; [lia|by apply elem_of_nil in Hz].
Qed.

(** As long as no branch reaches the depth cap, the walker returns the
    largest cumulative stack size it printed. *)
Lemma print_call_tree_max funcname stacksize level out r :
  print_call_tree py callees all_funcs funcname stacksize level = Some (out, r) →
  Forall (λ l, is_too_deep l = false) out →
  ∃ m, r = Ok (Some m) ∧ is_max_of out m.
Proof. apply print_call_tree_rec_max. Qed.
End maximum.

(** The example of the specification: A (10) calls B (5) calls C (3). *)
Example abc_funcs_walk :
  print_call_tree Python3 callees_elements abc_funcs "A" 0 0
  = Some ([Node 10 10 0 "A"; Node 15 5 1 "B"; Node 18 3 2 "C"], Ok (Some 18))
  ∧ main Python3 callees_elements abc_funcs "A"
    = Some ([], [" 10  10 A"; " 15   5   B"; " 18   3     C";
                 "Deepest stacksize: 18"], Ok ()).
Proof. split; vm_compute; reflexivity. Qed.

(** *** The depth cap *)

Example cycle_listing_funcs : process_lss ∅ cycle_listing = Ok cycle_funcs.
Proof. vm_compute. reflexivity. Qed.

(** Beyond level 20 the walker prints the line of the node and the
    marker, visits no callee and returns [None]. *)
Lemma print_call_tree_capped py callees all_funcs funcname stacksize level :
  (20 < level)%nat →
  print_call_tree py callees all_funcs funcname stacksize level
  = Some ([Node (stacksize + from_option _stacksize 0 (all_funcs !! funcname))
             (from_option _stacksize 0 (all_funcs !! funcname)) level funcname;
           NestedTooDeeply level], Ok None).
Proof.
  intros Hlevel. unfold print_call_tree.
  destruct (21 - level)%nat; simpl; by rewrite bool_decide_eq_true_2 by lia.
Qed.

Section cap.
Variable callees : Function → list string.
Variable all_funcs : gmap string Function.

Lemma for_callees_capped rec funcname level cs :
  (∀ c out r, rec c = Some (out, r) →
     Exists (λ l, is_too_deep l = true) out →
     r = Ok None ∨ r = Raise TypeError) →
  ∀ max_ss out r,
    for_callees Python3 rec funcname level cs max_ss = Some (out, r) →
    Exists (λ l, is_too_deep l = true) out →
    r = Raise TypeError.
Proof.
  intros Hrec. induction cs as [|c cs IH]; intros max_ss out r; simpl.
  - intros [= <- <-] Hdeep. by apply Exists_nil in Hdeep.
  - case_bool_decide as Hc.
    + destruct (for_callees Python3 rec funcname level cs max_ss)
        as [[out' r']|] eqn:E; simpl; [|done].
      intros [= <- <-] Hdeep. apply Exists_cons in Hdeep as [?|Hdeep]; [done|].
      by apply (IH _ _ _ E).
    + destruct (rec c) as [[out1 r1]|] eqn:Ec; simpl; [|done].
      destruct r1 as [[this_ss|]|e]; simpl.
      * destruct (for_callees Python3 rec funcname level cs (Z.max this_ss max_ss))
          as [[out2 r2]|] eqn:E; simpl; [|done].
        intros [= <- <-] Hdeep. apply Exists_app in Hdeep as [Hdeep|Hdeep].
        -- by destruct (Hrec _ _ _ Ec Hdeep).
        -- by apply (IH _ _ _ E).
      * by intros [= <- <-] _.
      * intros [= <- <-] Hdeep.
        destruct (Hrec _ _ _ Ec Hdeep) as [?|?]; congruence.
Qed.

Lemma print_call_tree_rec_capped fuel : ∀ funcname stacksize level out r,
  print_call_tree_rec Python3 callees all_funcs fuel funcname stacksize level
  = Some (out, r) →
  Exists (λ l, is_too_deep l = true) out →
  r = if bool_decide (20 < level)%nat then Ok None else Raise TypeError.
Proof.
  induction fuel as [|fuel IH]; intros funcname stacksize level out r; simpl.
  { case_bool_decide; [|done]. by intros [= <- <-] _. }
  case_bool_decide as Hlevel; [by intros [= <- <-] _|].
  destruct (all_funcs !! funcname) as [func|]; simpl.
  - destruct (for_callees Python3 _ funcname level (callees func) _)
      as [[out' r']|] eqn:E; simpl; [|done].
    intros [= <- <-] Hdeep. apply Exists_cons in Hdeep as [?|Hdeep]; [done|].
    assert (r' = Raise TypeError) as ->; [|done].
    eapply for_callees_capped; [|exact E|exact Hdeep].
    intros c out r Hc Hd. simpl in Hc.
    rewrite (IH _ _ _ _ _ Hc Hd). case_bool_decide; auto.
  - intros [= <- <-] Hdeep. apply Exists_cons in Hdeep as [?|Hdeep]; [done|].
    by apply Exists_nil in Hdeep.
Qed.

(** Under Python 3 every walk that reaches the depth cap ends in the
    [TypeError]: the failure is not particular to one index. *)
Lemma print_call_tree_capped_raises funcname stacksize level out r :
  (level ≤ 20)%nat →
  print_call_tree Python3 callees all_funcs funcname stacksize level
  = Some (out, r) →
  Exists (λ l, is_too_deep l = true) out →
  r = Raise TypeError.
Proof.
  intros Hlevel Hwalk Hdeep.
  rewrite (print_call_tree_rec_capped _ _ _ _ _ _ Hwalk Hdeep).
  by rewrite bool_decide_eq_false_2 by lia.
Qed.

Lemma for_callees_python2 rec funcname level cs :
  (∀ c out r, rec c = Some (out, r) → ∃ v, r = Ok v) →
  ∀ max_ss out r,
    for_callees Python2 rec funcname level cs max_ss = Some (out, r) →
    ∃ v, r = Ok v.
Proof.
  intros Hrec. induction cs as [|c cs IH]; intros max_ss out r; simpl.
  - intros [= <- <-]. eauto.
  - case_bool_decide as Hc.
    + destruct (for_callees Python2 rec funcname level cs max_ss)
        as [[out' r']|] eqn:E; simpl; [|done].
      intros [= <- <-]. by apply (IH _ _ _ E).
    + destruct (rec c) as [[out1 r1]|] eqn:Ec; simpl; [|done].
      destruct (Hrec _ _ _ Ec) as [this_ss ->]. simpl.
      destruct (py_max Python2 this_ss max_ss) as [max_ss'|e] eqn:Emax.
      * destruct (for_callees Python2 rec funcname level cs max_ss')
          as [[out2 r2]|] eqn:E; simpl; [|done].
        intros [= <- <-]. by apply (IH _ _ _ E).
      * by destruct this_ss.
Qed.

(** Under Python 2 the walker never raises. *)
Lemma print_call_tree_rec_python2 fuel : ∀ funcname stacksize level out r,
  print_call_tree_rec Python2 callees all_funcs fuel funcname stacksize level
  = Some (out, r) →
  ∃ v, r = Ok v.
Proof.
  induction fuel as [|fuel IH]; intros funcname stacksize level out r; simpl.
  { case_bool_decide; [|done]. intros [= <- <-]. eauto. }
  case_bool_decide; [intros [= <- <-]; eauto|].
  destruct (all_funcs !! funcname) as [func|]; simpl.
  - destruct (for_callees Python2 _ funcname level (callees func) _)
      as [[out' r']|] eqn:E; simpl; [|done].
    intros [= <- <-].
    destruct (for_callees_python2 _ _ _ _ (λ c, IH c _ _) _ _ _ E) as [v ->].
    simpl. eauto.
  - intros [= <- <-]. simpl. eauto.
Qed.
End cap.

(** C1. The code on the index of [cycle_listing], from ["A"]: the walk
    goes down A, B, A, ... to level 21 and prints the cumulative sizes 1 to
    22, of which 22 is the largest; the call at level 21 ends in the bare
    [return], so that [max] gets [None].  Under Python 3 the walk raises a
    [TypeError] and returns nothing; under Python 2 it returns 21, not the
    22 it printed. *)
Theorem print_call_tree_cycle py :
  print_call_tree py callees_elements cycle_funcs "A" 0 0
  = Some (cycle_out, match py with
                     | Python2 => Ok (Some 21)
                     | Python3 => Raise TypeError
                     end)
  ∧ is_max_of cycle_out 22.
Proof.
  split; [destruct py; vm_compute; reflexivity|].
  assert (Hcum : cumulative cycle_out = Z.of_nat <$> seq 1 22)
    by (vm_compute; reflexivity).
  unfold is_max_of. rewrite Hcum. split.
  - apply list_elem_of_fmap. exists 22%nat. split; [done|].
    apply elem_of_seq. lia.
  - intros z (n & -> & Hn%elem_of_seq)%list_elem_of_fmap. lia.
Qed.

(** C2. The code on the same index, as [main] runs it.  Under Python 3
    the marker of the depth cap is the last line printed: the
    [TypeError] of [max(None, 21)] leaves every call of the walk and
    [main], and no summary is printed.  Under Python 2 the run ends with
    a summary of 21, below the 22 printed for the node at level 21. *)
Theorem main_cycle :
  main Python3 callees_elements cycle_funcs "A"
  = Some ([], render <$> cycle_out, Raise TypeError)
  ∧ main Python2 callees_elements cycle_funcs "A"
    = Some ([], (render <$> cycle_out) ++ ["Deepest stacksize: 21"], Ok ())
  ∧ drop 21 (render <$> cycle_out)
    = [" 22   1 " +:+ repeat_str "  " 21 +:+ "B";
       repeat_str " " 52 +:+ " !!!! Nested too deeply"].
Proof. repeat split; vm_compute; reflexivity. Qed.

(** * Further properties of the script *)

(** ** Strings *)

Lemma append_nil_l s : "" +:+ s = s.
Proof. reflexivity. Qed.

Lemma append_cons c s1 s2 : String c s1 +:+ s2 = String c (s1 +:+ s2).
Proof. reflexivity. Qed.

Lemma append_nil_r s : s +:+ "" = s.
Proof.
  induction s as [|c s IH]; [done|]. by rewrite append_cons, IH.
Qed.

Lemma append_assoc s1 s2 s3 : (s1 +:+ s2) +:+ s3 = s1 +:+ (s2 +:+ s3).
Proof.
  induction s1 as [|c s1 IH]; [done|]. by rewrite !append_cons, IH.
Qed.

Lemma length_append s1 s2 :
  String.length (s1 +:+ s2) = (String.length s1 + String.length s2)%nat.
Proof.
  induction s1 as [|c s1 IH]; [done|]. rewrite append_cons. simpl. by rewrite IH.
Qed.

Lemma substring_append n s1 s2 :
  n = String.length s1 → substring 0 n (s1 +:+ s2) = s1.
Proof.
  intros ->. induction s1 as [|c s1 IH].
  - rewrite append_nil_l. by destruct s2.
  - rewrite append_cons. simpl. by rewrite IH.
Qed.

Lemma consumed_append pre s : consumed (pre +:+ s) s = pre.
Proof.
  unfold consumed. apply substring_append. rewrite length_append. lia.
Qed.

Lemma string_forall_append p s1 s2 :
  string_forall p (s1 +:+ s2) = string_forall p s1 && string_forall p s2.
Proof.
  induction s1 as [|c s1 IH]; [done|].
  rewrite append_cons. simpl. by rewrite IH, andb_assoc.
Qed.

(** ** The matcher and the language of a pattern *)

Lemma star_sound {A} p s (k : string → option A) x :
  star p s k = Some x →
  ∃ pre s', s = pre +:+ s' ∧ matches (Star p) pre ∧ k s' = Some x.
Proof.
  induction s as [|c s IH]; simpl.
  - intros Hk. exists "", "". split; [done|]. split; [constructor|done].
  - destruct (p c) eqn:Hc.
    + destruct (star p s k) as [y|] eqn:E.
      * intros [= ->]. destruct (IH eq_refl) as (pre & s' & -> & Hpre & Hk).
        exists (String c pre), s'. split; [done|].
        split; [by constructor|done].
      * intros Hk. exists "", (String c s). split; [done|].
        split; [constructor|done].
    + intros Hk. exists "", (String c s). split; [done|].
      split; [constructor|done].
Qed.

Lemma rmatch_sound {A} r : ∀ s g (k : string → groups → option A) x,
  rmatch r s g k = Some x →
  ∃ pre s' g',
    s = pre +:+ s' ∧ matches r pre ∧ k s' g' = Some x
    ∧ ∀ n t, g' !! n = Some t →
        g !! n = Some t ∨ ∃ r', r' ∈ group_pats r n ∧ matches r' t.
Proof.
  induction r as [|c|p|r1 IH1 r2 IH2|p|r IH|n r IH]; intros s g k x; simpl.
  - intros Hk. exists "", s, g. split; [done|]. split; [constructor|].
    split; [done|]. intros n t ?. by left.
  - destruct s as [|c' s]; [done|]. case_bool_decide as Hc; [|done]. subst c'.
    intros Hk. exists (String c ""), s, g. split; [done|].
    split; [constructor|]. split; [done|]. intros n t ?. by left.
  - destruct s as [|c' s]; [done|]. destruct (p c') eqn:Hc; [|done].
    intros Hk. exists (String c' ""), s, g. split; [done|].
    split; [by constructor|]. split; [done|]. intros n t ?. by left.
  - intros H. apply IH1 in H as (pre1 & s1 & g1 & -> & Hm1 & H & Hg1).
    apply IH2 in H as (pre2 & s2 & g2 & -> & Hm2 & H & Hg2).
    exists (pre1 +:+ pre2), s2, g2. split; [by rewrite append_assoc|].
    split; [by constructor|]. split; [done|].
    intros n t Ht. destruct (Hg2 n t Ht) as [Ht1|(r' & Hr' & Hm')].
    + destruct (Hg1 n t Ht1) as [?|(r' & Hr' & Hm')]; [by left|right].
      exists r'. split; [|done]. apply elem_of_app. by left.
    + right. exists r'. split; [|done]. apply elem_of_app. by right.
  - intros H. apply star_sound in H as (pre & s' & -> & Hm & H).
    exists pre, s', g. split; [done|]. split; [done|]. split; [done|].
    intros n t ?. by left.
  - destruct (rmatch r s g k) as [y|] eqn:E.
    + intros [= ->]. apply IH in E as (pre & s' & g' & -> & Hm & H & Hg).
      exists pre, s', g'. split; [done|]. split; [by constructor|].
      split; [done|]. done.
    + intros Hk. exists "", s, g. split; [done|]. split; [constructor|].
      split; [done|]. intros n t ?. by left.
  - intros H. apply IH in H as (pre & s' & g' & -> & Hm & H & Hg).
    rewrite consumed_append in H.
    exists pre, s', (<[n := pre]> g'). split; [done|].
    split; [by constructor|]. split; [done|].
    intros m t Ht. destruct (decide (n = m)) as [->|Hne].
    + rewrite lookup_insert_eq in Ht. injection Ht as <-. right.
      exists r. split; [|done]. rewrite bool_decide_eq_true_2 by done. left.
    + rewrite lookup_insert_ne in Ht by done.
      destruct (Hg m t Ht) as [?|(r' & Hr' & Hm')]; [by left|right].
      exists r'. split; [|done].
      rewrite bool_decide_eq_false_2 by done. done.
Qed.

Lemma matches_star_forall p t : matches (Star p) t → string_forall p t = true.
Proof.
  intros H. remember (Star p) as r eqn:Hr. induction H; try discriminate.
  - done.
  - injection Hr as ->. simpl. rewrite H. by apply IHmatches.
Qed.

Lemma matches_plus_forall p t :
  matches (Plus p) t → t ≠ "" ∧ string_forall p t = true.
Proof.
  unfold Plus. intros H. inversion H as [| | |? ? s1 s2 H1 H2| | | | |]; subst.
  inversion H1 as [| |? c Hc| | | | | |]; subst.
  rewrite append_cons, append_nil_l. simpl. split; [done|].
  by rewrite Hc, (matches_star_forall _ _ H2).
Qed.

(** ** [strip] and [int] on the texts of the groups *)

Lemma string_forall_impl (p q : ascii → bool) s :
  (∀ c, p c = true → q c = true) →
  string_forall p s = true → string_forall q s = true.
Proof.
  intros Hpq. induction s as [|c s IH]; simpl; [done|].
  intros [Hc Hs]%andb_true_iff. by rewrite (Hpq c Hc), IH.
Qed.

Lemma is_hex_nonspace c : is_hex c = true → is_nonspace c = true.
Proof. by destruct c as [[] [] [] [] [] [] [] []]. Qed.

Lemma is_word_nonspace c : is_word c = true → is_nonspace c = true.
Proof. by destruct c as [[] [] [] [] [] [] [] []]. Qed.

Lemma rev_app_forall p s1 : ∀ s2,
  string_forall p (String.rev_app s1 s2)
  = string_forall p s1 && string_forall p s2.
Proof.
  induction s1 as [|c s1 IH]; intros s2; simpl; [done|].
  rewrite IH. simpl. destruct (p c), (string_forall p s1); done.
Qed.

Lemma rev_app_rev_app s1 : ∀ s2 s3,
  String.rev_app (String.rev_app s1 s2) s3 = String.rev_app s2 (s1 +:+ s3).
Proof.
  induction s1 as [|c s1 IH]; intros s2 s3; simpl; [done|].
  by rewrite IH.
Qed.

Lemma rev_involutive s : String.rev (String.rev s) = s.
Proof.
  unfold String.rev. rewrite rev_app_rev_app. simpl. apply append_nil_r.
Qed.

Lemma lstrip_nonspace s : string_forall is_nonspace s = true → lstrip s = s.
Proof.
  destruct s as [|c s]; simpl; [done|].
  intros [Hc _]%andb_true_iff. unfold is_nonspace in Hc.
  apply negb_true_iff in Hc. by rewrite Hc.
Qed.

(** A text without white space is its own [strip]. *)
Lemma strip_nonspace s : string_forall is_nonspace s = true → strip s = s.
Proof.
  intros Hs. unfold strip, rstrip. rewrite (lstrip_nonspace s Hs).
  rewrite lstrip_nonspace; [apply rev_involutive|].
  unfold String.rev. rewrite rev_app_forall, Hs. done.
Qed.

Lemma hex_value_hex c :
  is_hex c = true → ∃ d, hex_value c = Some d ∧ 0 ≤ d < 16.
Proof.
  destruct c as [[] [] [] [] [] [] [] []]; try discriminate; intros _;
    eexists; (split; [vm_compute; reflexivity|lia]).
Qed.

Lemma hex_digits_hex s : ∀ acc,
  string_forall is_hex s = true → 0 ≤ acc →
  ∃ n, hex_digits acc s = Some n ∧ 0 ≤ n.
Proof.
  induction s as [|c s IH]; intros acc; simpl; [eauto|].
  intros [Hc Hs]%andb_true_iff Hacc.
  destruct (hex_value_hex c Hc) as (d & -> & Hd). apply IH; [done|lia].
Qed.

(** [int(s, 16)] of a non-empty run of lower-case hexadecimal digits is a
    number, and not negative. *)
Lemma int16_hex s :
  s ≠ "" → string_forall is_hex s = true → ∃ n, int16 s = Ok n ∧ 0 ≤ n.
Proof.
  intros Hne Hs. unfold int16.
  rewrite strip_nonspace
    by (apply (string_forall_impl is_hex); [apply is_hex_nonspace|exact Hs]).
  destruct s as [|c t]; [done|]. clear Hne.
  destruct (hex_digits_hex (String c t) 0 Hs) as (n & Hn & Hpos); [lia|].
  simpl in Hs. apply andb_true_iff in Hs as [Hc Ht].
  assert (Hcase : c = "0"%char ∨ c ≠ "0"%char) by (destruct (decide (c = "0"%char)); auto).
  destruct Hcase as [->|Hc0].
  - destruct t as [|c2 t2].
    + exists 0. by vm_compute.
    + simpl in Ht. apply andb_true_iff in Ht as [Hc2 Ht2].
      exists n. split; [|done].
      destruct c2 as [[] [] [] [] [] [] [] []]; try discriminate Hc2;
        simpl in *; by rewrite Hn, Z.mul_1_l.
  - exists n. split; [|done].
    destruct c as [[] [] [] [] [] [] [] []]; try discriminate Hc;
      try (by destruct Hc0); simpl in *; by rewrite Hn, Z.mul_1_l.
Qed.

(** ** What the groups of the three patterns hold *)

Lemma re_match_group pat s m n t :
  re_match pat s = Some m → m !! n = Some t →
  ∃ r', r' ∈ group_pats pat n ∧ matches r' t.
Proof.
  intros Hm Ht. apply rmatch_sound in Hm as (pre & s' & g' & _ & _ & [= ->] & Hg).
  destruct (Hg n t Ht) as [Hempty|?]; [|done].
  by rewrite lookup_empty in Hempty.
Qed.

Lemma first_line_match_groups s name addr :
  first_line_match s = Some (name, addr) →
  (name ≠ "" ∧ string_forall is_word name = true)
  ∧ (addr ≠ "" ∧ string_forall is_hex addr = true).
Proof.
  unfold first_line_match.
  destruct (re_match first_line_pat s) as [m|] eqn:Hm; simpl; [|done].
  destruct (m !! "name") as [name'|] eqn:Hname; simpl; [|done].
  destruct (m !! "addr") as [addr'|] eqn:Haddr; simpl; [|done].
  intros [= <- <-]. split.
  - destruct (re_match_group _ _ _ _ _ Hm Hname) as (r' & Hr' & Hmatch).
    apply list_elem_of_singleton in Hr' as ->. by apply matches_plus_forall.
  - destruct (re_match_group _ _ _ _ _ Hm Haddr) as (r' & Hr' & Hmatch).
    apply list_elem_of_singleton in Hr' as ->. by apply matches_plus_forall.
Qed.

Lemma instr_line_match_groups s opc rest :
  instr_line_match s = Some (opc, rest) →
  (opc ≠ "" ∧ string_forall is_word opc = true)
  ∧ ∀ r, rest = Some r → string_forall is_dot r = true.
Proof.
  unfold instr_line_match.
  destruct (re_match instr_line_pat s) as [m|] eqn:Hm; simpl; [|done].
  destruct (m !! "opc") as [opc'|] eqn:Hopc; simpl; [|done].
  intros [= <- <-]. split.
  - destruct (re_match_group _ _ _ _ _ Hm Hopc) as (r' & Hr' & Hmatch).
    apply list_elem_of_singleton in Hr' as ->. by apply matches_plus_forall.
  - intros r Hr.
    destruct (re_match_group _ _ _ _ _ Hm Hr) as (r' & Hr' & Hmatch).
    apply list_elem_of_singleton in Hr' as ->. by apply matches_star_forall.
Qed.

Lemma rest_match_groups s name :
  rest_match s = Some name → name ≠ "" ∧ string_forall is_word name = true.
Proof.
  unfold rest_match.
  destruct (re_match rest_pat s) as [m|] eqn:Hm; simpl; [|done].
  intros Hname.
  destruct (re_match_group _ _ _ _ _ Hm Hname) as (r' & Hr' & Hmatch).
  apply list_elem_of_singleton in Hr' as ->. by apply matches_plus_forall.
Qed.

(** X1. A header line yields a name that is a non-empty run of word
    characters and an address that is a non-empty run of lower-case
    hexadecimal digits; [int(addr, 16)] of it is a number that is not
    negative, so that the constructor cannot fail on the header. *)
Theorem header_name_and_address s name addr :
  first_line_match s = Some (name, addr) →
  (name ≠ "" ∧ string_forall is_word name = true)
  ∧ (addr ≠ "" ∧ string_forall is_hex addr = true)
  ∧ ∃ n, int16 addr = Ok n ∧ 0 ≤ n.
Proof.
  intros Hm. destruct (first_line_match_groups _ _ _ Hm) as [Hname [Hne Hhex]].
  split; [done|]. split; [done|]. by apply int16_hex.
Qed.

Lemma header_name_and_address_witness :
  first_line_match realloc_header = Some ("realloc", "00000978")
  ∧ ("realloc" ≠ "" ∧ string_forall is_word "realloc" = true)
  ∧ ("00000978" ≠ "" ∧ string_forall is_hex "00000978" = true)
  ∧ ∃ n, int16 "00000978" = Ok n ∧ 0 ≤ n.
Proof.
  assert (H : first_line_match realloc_header = Some ("realloc", "00000978"))
    by (vm_compute; reflexivity).
  split; [exact H|]. exact (header_name_and_address _ _ _ H).
Defined.

(** ** The constructor *)

Lemma find_callees_elem body callees c :
  find_callees body = Ok callees → c ∈ callees →
  ∃ line is_last, line ∈ body ∧ call_edge line is_last c.
Proof.
  unfold find_callees.
  destruct (analyse_calls ∅ (removelast body)) as [callees1|e] eqn:H1; [|done].
  simpl. unfold last_item.
  destruct (last body) as [b|] eqn:Hlast; [|done]. simpl.
  apply last_Some in Hlast as [pre ->]. rewrite removelast_last in H1.
  intros H2 Hc. apply (analyse_call_Ok _ _ _ _ H2) in Hc as [Hc|Hedge].
  - apply (analyse_calls_Ok _ _ _ H1) in Hc as [Hc|(i & line & Hi & Hedge)].
    + by apply elem_of_empty in Hc.
    + exists line, false. split; [|done]. apply elem_of_app. left.
      by apply list_elem_of_lookup_2 in Hi.
  - exists b, true. split; [|done]. apply elem_of_app. right. left.
Qed.

Lemma find_callees_nonempty body callees :
  find_callees body = Ok callees → body ≠ [].
Proof.
  intros H ->. by vm_compute in H.
Qed.

(** X2. Every [Function] the constructor returns has at least one body
    line, an address that is not negative, and a name and callees that
    are non-empty runs of word characters; its body is the block, without
    the first line when that is a header. *)
Theorem Function_init_invariants lines f :
  Function_init lines = Ok f →
  _body f ≠ []
  ∧ (_body f = lines ∨ _body f = drop 1 lines)
  ∧ 0 ≤ _addr f
  ∧ (_name f ≠ "" ∧ string_forall is_word (_name f) = true)
  ∧ ∀ c, c ∈ _callees f → c ≠ "" ∧ string_forall is_word c = true.
Proof.
  intros Hf. destruct (Function_init_Ok _ _ Hf) as (l0 & tl & -> & Hhd & Hcs & Hss).
  split; [by apply (find_callees_nonempty _ _ Hcs)|].
  split; [|split; [|split]].
  - destruct (first_line_match l0) as [[name addr]|]; [right|left]; tauto.
  - destruct (first_line_match l0) as [[name addr]|] eqn:Hm.
    + destruct (first_line_match_groups _ _ _ Hm) as (_ & Hne & Hhex).
      destruct (int16_hex _ Hne Hhex) as (n & Hn & Hpos).
      destruct Hhd as (_ & Haddr & _). congruence.
    + destruct Hhd as (_ & -> & _). lia.
  - destruct (first_line_match l0) as [[name addr]|] eqn:Hm.
    + destruct (first_line_match_groups _ _ _ Hm) as (Hname & _).
      destruct Hhd as (-> & _). done.
    + destruct Hhd as (-> & _). by vm_compute.
  - intros c Hc.
    destruct (find_callees_elem _ _ _ Hcs Hc) as (line & il & _ & Hedge).
    destruct Hedge as (opc & rest & _ & _ & Hr). by apply (rest_match_groups rest).
Qed.

Lemma Function_init_invariants_witness :
  Function_init realloc_block
  = Ok {| _name := "realloc"; _addr := 2424; _body := drop 1 realloc_block;
          _callees := {["free"; "malloc"]}; _stacksize := 2 |}
  ∧ drop 1 realloc_block ≠ []
  ∧ (drop 1 realloc_block = realloc_block
     ∨ drop 1 realloc_block = drop 1 realloc_block)
  ∧ 0 ≤ 2424
  ∧ ("realloc" ≠ "" ∧ string_forall is_word "realloc" = true)
  ∧ ∀ c, c ∈ ({["free"; "malloc"]} : gset string) →
         c ≠ "" ∧ string_forall is_word c = true.
Proof.
  assert (H : Function_init realloc_block
              = Ok {| _name := "realloc"; _addr := 2424;
                      _body := drop 1 realloc_block;
                      _callees := {["free"; "malloc"]}; _stacksize := 2 |})
    by (vm_compute; reflexivity).
  split; [exact H|]. exact (Function_init_invariants _ _ H).
Defined.

(** ** When the search for callees raises *)

Lemma analyse_call_outcome callees line is_last :
  (bare_candidate line is_last
   ∧ analyse_call callees line is_last = Raise TypeError)
  ∨ (¬ bare_candidate line is_last
     ∧ ∃ callees', analyse_call callees line is_last = Ok callees').
Proof.
  unfold analyse_call, bare_candidate.
  destruct (instr_line_match (strip line)) as [[opc rest]|] eqn:Hm.
  - destruct (bool_decide (opc ∈ ["call"; "rcall"])
              || is_last && bool_decide (opc ∈ ["jmp"; "rjmp"])) eqn:Hopc.
    + apply edge_opcode in Hopc. destruct rest as [rest|].
      * right. split; [by intros (? & [= _ ?] & _)|].
        destruct (rest_match rest); eauto.
      * left. split; [|done]. by exists opc.
    + right. split.
      * intros (opc' & [= <- _] & Hedge). apply edge_opcode in Hedge. congruence.
      * destruct (bool_decide (opc ∈ ["icall"])); eauto.
  - right. split; [by intros (? & ? & _)|eauto].
Qed.

Lemma analyse_calls_outcome bs : ∀ callees,
  ((∃ b, b ∈ bs ∧ bare_candidate b false)
   ∧ analyse_calls callees bs = Raise TypeError)
  ∨ ((∀ b, b ∈ bs → ¬ bare_candidate b false)
     ∧ ∃ callees', analyse_calls callees bs = Ok callees').
Proof.
  induction bs as [|b bs IH]; intros callees; simpl.
  - right. split; [by intros b ?%elem_of_nil|eauto].
  - destruct (analyse_call_outcome callees b false)
      as [[Hb ->]|[Hb [callees1 ->]]]; simpl.
    + left. split; [|done]. exists b. split; [left|done].
    + destruct (IH callees1) as [[(b' & Hin & Hb') ->]|[Hbs [callees' ->]]].
      * left. split; [|done]. exists b'. split; [by right|done].
      * right. split; [|eauto].
        intros b' [->|Hin]%elem_of_cons; [done|by apply Hbs].
Qed.

(** X3. The search for the callees of a body raises in two cases and no
    other: an [IndexError] on the empty body, and a [TypeError] when a
    [call] or [rcall] line, or a [jmp] or [rjmp] last line, has nothing
    after its opcode.  On every other body it returns a set. *)
Theorem find_callees_outcome pre b :
  find_callees [] = Raise IndexError
  ∧ ((∃ l, l ∈ pre ∧ bare_candidate l false) ∨ bare_candidate b true →
     find_callees (pre ++ [b]) = Raise TypeError)
  ∧ ((∀ l, l ∈ pre → ¬ bare_candidate l false) → ¬ bare_candidate b true →
     ∃ callees, find_callees (pre ++ [b]) = Ok callees).
Proof.
  split; [done|]. unfold find_callees, last_item.
  rewrite removelast_last, last_snoc.
  destruct (analyse_calls_outcome pre ∅)
    as [[(l & Hin & Hl) ->]|[Hpre [callees1 ->]]]; simpl.
  - split; [done|]. intros Hno. by destruct (Hno l Hin).
  - destruct (analyse_call_outcome callees1 b true)
      as [[Hb ->]|[Hb [callees' ->]]].
    + split; [done|]. by intros _ ?.
    + split; [|eauto]. intros [(l & Hin & Hl)|?]; [|done].
      by destruct (Hpre l Hin).
Qed.

Lemma find_callees_outcome_witness :
  find_callees [] = Raise IndexError
  ∧ (bare_candidate rcall_bare false
     ∧ find_callees ([push_r28; rcall_bare] ++ [ret_line]) = Raise TypeError)
  ∧ ∃ callees, find_callees ([] ++ [ret_line]) = Ok callees.
Proof.
  assert (Hbare : bare_candidate rcall_bare false).
  { exists "rcall". split; [vm_compute; reflexivity|by right; left]. }
  assert (Hret : ¬ bare_candidate ret_line true).
  { intros (opc & Hm & Hopc). vm_compute in Hm. injection Hm as <-.
    destruct Hopc as [?|[?|[_ [?|?]]]]; discriminate. }
  split; [apply (find_callees_outcome [] "")|]. split.
  - split; [exact Hbare|].
    apply (find_callees_outcome [push_r28; rcall_bare] ret_line).
    left. exists rcall_bare. split; [right; left|exact Hbare].
  - apply (find_callees_outcome [] ret_line); [|exact Hret].
    intros l Hl. by apply elem_of_nil in Hl.
Defined.

(** ** More on the stack-frame estimator *)

Lemma count_pushes_loop_instructions body : ∀ s,
  count_pushes_loop s body
  = count_pushes_loop s (filter (λ b, is_Some (opcode b)) body).
Proof.
  induction body as [|b body IH]; intros s; [done|].
  rewrite filter_cons. destruct (opcode b) as [opc|] eqn:Hopc.
  - rewrite decide_True by eauto. simpl.
    destruct (count_pushes_line s b) as [[s'|s']|e]; simpl; [|done|done].
    apply IH.
  - rewrite decide_False by (by intros [? ?]). simpl.
    rewrite count_pushes_line_None by done. simpl. apply IH.
Qed.

(** X4. Lines that are no instructions (blank lines, labels, source text)
    never change the estimate: the body gives the same result, or the
    same exception, as its instruction lines alone. *)
Theorem count_pushes_instructions_only body :
  count_pushes body = count_pushes (filter (λ b, is_Some (opcode b)) body).
Proof. unfold count_pushes. by rewrite <- count_pushes_loop_instructions. Qed.

(** What an iteration that does not raise has done. *)
Lemma count_pushes_line_inv s b c :
  count_pushes_line s b = Ok c →
  (opcode b = None ∧ c = Next s)
  ∨ (opcode b = Some "push" ∧ done_pushes s = false
     ∧ c = Next {| count := count s + 1; done_pushes := false;
                   nr_in := nr_in s |})
  ∨ (∃ opc s', opcode b = Some opc
       ∧ (done_pushes s = false → opc ≠ "push")
       ∧ c = Next s' ∧ count s' = count s ∧ done_pushes s' = true)
  ∨ (∃ opc rest tok toks V s',
       instr_line_match (strip b) = Some (opc, Some rest)
       ∧ (done_pushes s = false → opc ≠ "push")
       ∧ (opc = "sbiw" ∨ opc = "subi")
       ∧ split rest = "r28," :: tok :: toks ∧ int16 tok = Ok V
       ∧ c = Break s' ∧ count s' = count s + V).
Proof.
  unfold opcode, count_pushes_line.
  destruct (instr_line_match (strip b)) as [[opc rest]|] eqn:Hm; simpl.
  2: { intros [= <-]. by left. }
  destruct (negb (done_pushes s) && bool_decide (opc = "push")) eqn:E1.
  { apply andb_true_iff in E1 as [Hd Ho]. apply negb_true_iff in Hd.
    apply bool_decide_eq_true in Ho. subst opc. rewrite Hd.
    intros [= <-]. right; left. done. }
  assert (Hnp : done_pushes s = false → opc ≠ "push").
  { intros Hd ->. by rewrite Hd in E1. }
  destruct ((nr_in s <? 2) && bool_decide (opc = "in")).
  { intros [= <-]. right; right; left. eexists _, _. done. }
  destruct ((nr_in s =? 2) && bool_decide (opc ∈ ["sbiw"; "subi"])) eqn:E3.
  2: { intros [= <-]. right; right; left. eexists _, _. done. }
  apply andb_true_iff in E3 as [_ Ho].
  apply bool_decide_eq_true, elem_of_pair in Ho.
  destruct rest as [rest|]; [|done].
  destruct (split rest) as [|v0 v] eqn:Hsplit; simpl; [done|].
  destruct (bool_decide (v0 = "r28,")) eqn:Hv0.
  2: { intros [= <-]. right; right; left. eexists _, _. done. }
  apply bool_decide_eq_true in Hv0.
  subst v0. destruct v as [|tok toks]; simpl; [done|].
  destruct (int16 tok) as [V|e] eqn:HV; [|done]. simpl.
  intros [= <-]. right; right; right.
  eexists opc, rest, tok, toks, V, _. done.
Qed.

Lemma count_pushes_loop_inv body : ∀ s c,
  count_pushes_loop s body = Ok c →
  let P := if done_pushes s then 0
           else Z.of_nat (leading_pushes (opcodes body)) in
  (∃ s', c = Next s' ∧ count s' = count s + P)
  ∨ (∃ b opc rest tok toks V s',
       b ∈ body ∧ instr_line_match (strip b) = Some (opc, Some rest)
       ∧ (opc = "sbiw" ∨ opc = "subi")
       ∧ split rest = "r28," :: tok :: toks ∧ int16 tok = Ok V
       ∧ c = Break s' ∧ count s' = count s + P + V).
Proof.
  induction body as [|b body IH]; intros s c; simpl.
  { intros [= <-]. left. exists s. split; [done|]. destruct (done_pushes s); lia. }
  destruct (count_pushes_line s b) as [c1|e] eqn:Hline; [|done]. simpl.
  unfold opcodes. simpl.
  destruct (count_pushes_line_inv _ _ _ Hline)
    as [[Hop ->]|[(Hop & Hd & ->)|[(opc & s1 & Hop & Hnp & -> & Hc1 & Hd1)
       |(opc & rest & tok & toks & V & s1 & Hm & Hnp & Ho & Hs & HV & -> & Hc1)]]].
  - rewrite Hop. intros Hloop.
    destruct (IH _ _ Hloop) as [?|(b' & opc & rest & tok & toks & V & s' & Hin & ?)];
      [by left|right].
    exists b', opc, rest, tok, toks, V, s'. split; [by right|done].
  - rewrite Hop, Hd. simpl. intros Hloop.
    destruct (IH _ _ Hloop) as [(s' & -> & Hc)|(b' & opc & rest & tok & toks & V
                                                 & s' & Hin & ? & ? & ? & ? & -> & Hc)];
      simpl in Hc.
    + left. exists s'. split; [done|]. fold (opcodes body). lia.
    + right. exists b', opc, rest, tok, toks, V, s'.
      split; [by right|]. repeat (split; [done|]). fold (opcodes body). lia.
  - rewrite Hop. simpl. intros Hloop.
    assert (HP : (if done_pushes s then 0
                  else Z.of_nat (if bool_decide (opc = "push")
                                 then S (leading_pushes (omap opcode body))
                                 else 0%nat)) = 0).
    { destruct (done_pushes s); [done|].
      by rewrite bool_decide_eq_false_2 by auto. }
    rewrite HP.
    destruct (IH _ _ Hloop) as [(s' & -> & Hc)|(b' & opc' & rest & tok & toks & V
                                                 & s' & Hin & ? & ? & ? & ? & -> & Hc)];
      rewrite Hd1 in Hc.
    + left. exists s'. split; [done|]. lia.
    + right. exists b', opc', rest, tok, toks, V, s'.
      split; [by right|]. repeat (split; [done|]). lia.
  - intros [= <-]. right. exists b, opc, rest, tok, toks, V, s1.
    split; [left|]. repeat (split; [done|]).
    assert (Hop : opcode b = Some opc) by (unfold opcode; by rewrite Hm).
    rewrite Hop. simpl.
    destruct (done_pushes s); [lia|].
    rewrite bool_decide_eq_false_2 by auto. lia.
Qed.

(** X5. The estimate is the number of leading [push] instructions, plus
    at most one immediate: the result of [count_pushes] is either the
    length of the run of [push] at the head of the instructions of the
    body, or that length plus the hexadecimal second field of one [sbiw]
    or [subi] line of the body whose first field is [r28,]. *)
Theorem count_pushes_decomposition body n :
  count_pushes body = Ok n →
  n = Z.of_nat (leading_pushes (opcodes body))
  ∨ ∃ b opc rest tok toks V,
      b ∈ body ∧ instr_line_match (strip b) = Some (opc, Some rest)
      ∧ (opc = "sbiw" ∨ opc = "subi")
      ∧ split rest = "r28," :: tok :: toks ∧ int16 tok = Ok V
      ∧ n = Z.of_nat (leading_pushes (opcodes body)) + V.
Proof.
  unfold count_pushes.
  destruct (count_pushes_loop scan0 body) as [c|e] eqn:Hloop; [|done]. simpl.
  intros [= <-].
  destruct (count_pushes_loop_inv _ _ _ Hloop)
    as [(s' & -> & Hc)|(b & opc & rest & tok & toks & V & s' & Hin & Hm & Ho & Hs
                        & HV & -> & Hc)]; simpl in *.
  - left. lia.
  - right. exists b, opc, rest, tok, toks, V. repeat (split; [done|]). lia.
Qed.

Lemma count_pushes_decomposition_witness :
  count_pushes [push_r17; push_r28; push_r29; in_r28; in_r29; sbiw_r28] = Ok 17
  ∧ (17 = Z.of_nat (leading_pushes (opcodes
             [push_r17; push_r28; push_r29; in_r28; in_r29; sbiw_r28]))
     ∨ ∃ b opc rest tok toks V,
         b ∈ [push_r17; push_r28; push_r29; in_r28; in_r29; sbiw_r28]
         ∧ instr_line_match (strip b) = Some (opc, Some rest)
         ∧ (opc = "sbiw" ∨ opc = "subi")
         ∧ split rest = "r28," :: tok :: toks ∧ int16 tok = Ok V
         ∧ 17 = Z.of_nat (leading_pushes (opcodes
                  [push_r17; push_r28; push_r29; in_r28; in_r29; sbiw_r28])) + V).
Proof.
  assert (H : count_pushes
                [push_r17; push_r28; push_r29; in_r28; in_r29; sbiw_r28] = Ok 17)
    by (vm_compute; reflexivity).
  split; [exact H|]. exact (count_pushes_decomposition _ _ H).
Defined.

Lemma count_pushes_loop_no_sub body : ∀ s,
  (∀ b, b ∈ body → opcode b ≠ Some "sbiw" ∧ opcode b ≠ Some "subi") →
  ∃ s', count_pushes_loop s body = Ok (Next s').
Proof.
  induction body as [|b body IH]; intros s Hno; simpl; [eauto|].
  destruct (Hno b ltac:(left)) as [Hsbiw Hsubi].
  assert (Hline : ∃ s1, count_pushes_line s b = Ok (Next s1)).
  { unfold opcode in Hsbiw, Hsubi. unfold count_pushes_line.
    destruct (instr_line_match (strip b)) as [[opc rest]|]; [|eauto].
    simpl in *.
    destruct (negb (done_pushes s) && bool_decide (opc = "push")); [eauto|].
    destruct ((nr_in s <? 2) && bool_decide (opc = "in")); [eauto|].
    rewrite (bool_decide_eq_false_2 (opc ∈ ["sbiw"; "subi"])).
    - rewrite andb_false_r. eauto.
    - rewrite elem_of_pair. intros [-> | ->]; congruence. }
  destruct Hline as [s1 ->]. simpl. apply IH.
  intros b' Hb'. apply Hno. by right.
Qed.

(** X6. On a body without [sbiw] and [subi] instructions the estimator
    never raises, and its result is exactly the number of leading [push]
    instructions. *)
Theorem count_pushes_no_subtraction body :
  (∀ b, b ∈ body → opcode b ≠ Some "sbiw" ∧ opcode b ≠ Some "subi") →
  count_pushes body = Ok (Z.of_nat (leading_pushes (opcodes body))).
Proof.
  intros Hno. unfold count_pushes.
  destruct (count_pushes_loop_no_sub body scan0 Hno) as [s' Hloop].
  rewrite Hloop. simpl.
  destruct (count_pushes_loop_inv _ _ _ Hloop)
    as [(s1 & [= <-] & Hc)|(? & ? & ? & ? & ? & ? & ? & _ & _ & _ & _ & _ & [=] & _)].
  simpl in Hc. f_equal. lia.
Qed.

Lemma count_pushes_no_subtraction_witness :
  (∀ b, b ∈ [push_r28; push_r29; movw_r24; push_r17; ret_line] →
        opcode b ≠ Some "sbiw" ∧ opcode b ≠ Some "subi")
  ∧ count_pushes [push_r28; push_r29; movw_r24; push_r17; ret_line] = Ok 2.
Proof.
  assert (H : ∀ b, b ∈ [push_r28; push_r29; movw_r24; push_r17; ret_line] →
                   opcode b ≠ Some "sbiw" ∧ opcode b ≠ Some "subi").
  { intros b Hb. repeat (apply elem_of_cons in Hb as [-> | Hb]);
      [.. | by apply elem_of_nil in Hb]; split; vm_compute; discriminate. }
  split; [exact H|]. exact (count_pushes_no_subtraction _ H).
Defined.

(** ** The index *)

Lemma process_lss_lookup blocks : ∀ all_funcs all_funcs',
  process_lss all_funcs blocks = Ok all_funcs' →
  ∃ fs,
    Forall2 (λ lines f, Function_init lines = Ok f) blocks fs
    ∧ ∀ name,
        all_funcs' !! name
        = from_option Some (all_funcs !! name)
            (last (filter (λ f, _name f = name) fs)).
Proof.
  induction blocks as [|lines blocks IH]; intros all_funcs all_funcs'; simpl.
  - intros [= <-]. exists []. split; [constructor|done].
  - destruct (Function_init lines) as [f0|e] eqn:Hf0; [|done]. simpl.
    intros Hrest. destruct (IH _ _ Hrest) as (fs & Hfs & Hlookup).
    exists (f0 :: fs). split; [by constructor|].
    intros name. rewrite Hlookup, filter_cons.
    destruct (decide (_name f0 = name)) as [<-|Hne].
    + rewrite lookup_insert_eq.
      destruct (filter (λ f, _name f = _name f0) fs) as [|f1 fs1] eqn:E;
        [done|].
      rewrite last_cons_cons.
      destruct (last (f1 :: fs1)) eqn:El; [done|]. by apply last_None in El.
    + by rewrite lookup_insert_ne.
Qed.

(** X7. [process_lss] on an empty [all_funcs]: when it returns, every
    block has made its [Function], each name of a block maps to the
    [Function] of the last block of that name (a later block replaces an
    earlier one, so all blocks without header share the one entry
    ["unknown"]), every other name is absent, and every [Function] is
    stored under its own name. *)
Theorem process_lss_index blocks all_funcs :
  process_lss ∅ blocks = Ok all_funcs →
  ∃ fs,
    Forall2 (λ lines f, Function_init lines = Ok f) blocks fs
    ∧ (∀ name,
         all_funcs !! name = last (filter (λ f, _name f = name) fs))
    ∧ (∀ name f, all_funcs !! name = Some f → _name f = name).
Proof.
  intros H. destruct (process_lss_lookup _ _ _ H) as (fs & Hfs & Hlookup).
  exists fs. split; [done|]. split.
  - intros name. rewrite Hlookup, lookup_empty.
    by destruct (last (filter (λ f, _name f = name) fs)).
  - apply (process_lss_keyed blocks ∅); [|done].
    intros name f. by rewrite lookup_empty.
Qed.

Lemma process_lss_index_witness :
  process_lss ∅ [[push_r28; ret_line]; realloc_block; [rcall_free; ret_line]]
  = Ok unknown_funcs
  ∧ ∃ fs,
      Forall2 (λ lines f, Function_init lines = Ok f)
        [[push_r28; ret_line]; realloc_block; [rcall_free; ret_line]] fs
      ∧ (∀ name,
           unknown_funcs !! name = last (filter (λ f, _name f = name) fs))
      ∧ (∀ name f, unknown_funcs !! name = Some f → _name f = name).
Proof.
  assert (H : process_lss ∅ [[push_r28; ret_line]; realloc_block;
                              [rcall_free; ret_line]] = Ok unknown_funcs)
    by (vm_compute; reflexivity).
  split; [exact H|]. exact (process_lss_index _ _ H).
Defined.

(** X8. [process_lss] raises exactly when the constructor raises on some
    block, and then with the exception of the first such block: one block
    that cannot be read leaves the script without any index. *)
Theorem process_lss_raises blocks all_funcs e :
  process_lss all_funcs blocks = Raise e
  ↔ ∃ pre lines post,
      blocks = pre ++ lines :: post
      ∧ Forall (λ l, ∃ f, Function_init l = Ok f) pre
      ∧ Function_init lines = Raise e.
Proof.
  revert all_funcs. induction blocks as [|lines blocks IH]; intros all_funcs; simpl.
  - split; [done|]. intros (pre & l & post & Heq & _). by destruct pre.
  - destruct (Function_init lines) as [f0|e0] eqn:Hf0; simpl.
    + rewrite IH. split.
      * intros (pre & l & post & -> & Hpre & Hl).
        exists (lines :: pre), l, post. split; [done|].
        split; [constructor; eauto|done].
      * intros (pre & l & post & Heq & Hpre & Hl).
        destruct pre as [|l0 pre]; simpl in Heq; injection Heq as -> ->.
        -- congruence.
        -- inversion Hpre; subst. by exists pre, l, post.
    + split.
      * intros [= ->]. exists [], lines, blocks. split; [done|].
        split; [constructor|done].
      * intros (pre & l & post & Heq & Hpre & Hl).
        destruct pre as [|l0 pre]; simpl in Heq; injection Heq as -> ->.
        -- congruence.
        -- inversion Hpre as [|? ? [f Hf] _]; subst. congruence.
Qed.

Lemma process_lss_raises_witness :
  process_lss ∅ [[push_r28; ret_line]; [realloc_header]; realloc_block]
  = Raise IndexError.
Proof.
  apply process_lss_raises.
  exists [[push_r28; ret_line]], [realloc_header], [realloc_block].
  split; [reflexivity|]. split; [|vm_compute; reflexivity].
  constructor; [|constructor]. eexists. vm_compute. reflexivity.
Defined.

(** ** The chunks of a listing *)

Example get_funcs_sample :
  get_funcs sample_blob
  = [ [""; "blink.elf:     file format elf32-avr"; "";
       "Disassembly of section .text:"];
      ["00000100 <A>:";
       mk_line "100" "cf 93       " "push" "r28";
       mk_line "102" "7e d0       " "rcall" (".+252    " +:+ tab +:+ "; 0x200 <B>");
       "     104:" +:+ tab +:+ "08 95       " +:+ tab +:+ "ret"];
      ["00000200 <B>:";
       mk_line "200" "cf 93       " "push" "r28";
       mk_line "202" "df 93       " "push" "r29";
       "     204:" +:+ tab +:+ "08 95       " +:+ tab +:+ "ret"] ].
Proof. vm_compute. reflexivity. Qed.

(** The listing from the text to the tree. *)
Example sample_blob_tree :
  (all_funcs ← process_lss ∅ (get_funcs sample_blob);
   Ok (main Python3 callees_elements all_funcs "A"))
  = Ok (Some ([], ["  1   1 A"; "  3   2   B"; "Deepest stacksize: 3"], Ok ())).
Proof. vm_compute. reflexivity. Qed.

Example get_funcs_edges :
  get_funcs "" = [[]]
  ∧ get_funcs (blank_line +:+ "12 x") = [[]; ["12 x"]]
  ∧ get_funcs (nl +:+ blank_line +:+ "12 x") = [[""]; ["12 x"]]
  ∧ get_funcs ("x" +:+ blank_line +:+ "G1 ") = [["x"; ""; "G1 "]]
  ∧ splitlines ("a" +:+ String CR nl +:+ "b" +:+ String CR "c" +:+ nl)
    = ["a"; "b"; "c"].
Proof. repeat split; vm_compute; reflexivity. Qed.

Lemma symbol_split_nonempty blob : symbol_split blob ≠ [].
Proof.
  destruct blob as [|c s']; simpl; [done|].
  destruct s' as [|c' rest].
  - by destruct (symbol_split "").
  - destruct (bool_decide (c = LF) && bool_decide (c' = LF) && symbol_ahead rest);
      [done|].
    by destruct (symbol_split (String c' rest)).
Qed.

Lemma concat_cons_head sep c x xs :
  String.concat sep (String c x :: xs) = String c (String.concat sep (x :: xs)).
Proof. destruct xs; reflexivity. Qed.

Lemma symbol_split_concat_bounded n : ∀ blob,
  (String.length blob ≤ n)%nat →
  String.concat blank_line (symbol_split blob) = blob.
Proof.
  induction n as [|n IH]; intros blob Hlen.
  { destruct blob; [done|simpl in Hlen; lia]. }
  destruct blob as [|c s']; [done|]. simpl in Hlen.
  assert (Hgo : String.concat blank_line
                  match symbol_split s' with
                  | chunk :: chunks => String c chunk :: chunks
                  | [] => [String c ""]
                  end = String c s').
  { pose proof (symbol_split_nonempty s') as Hne.
    pose proof (IH s' ltac:(lia)) as Hs'.
    destruct (symbol_split s') as [|chunk chunks]; [done|].
    by rewrite concat_cons_head, Hs'. }
  simpl. destruct s' as [|c' rest]; [exact Hgo|].
  destruct (bool_decide (c = LF) && bool_decide (c' = LF) && symbol_ahead rest)
    eqn:Hcut; [|exact Hgo].
  apply andb_true_iff in Hcut as [[Hc Hc']%andb_true_iff _].
  apply bool_decide_eq_true in Hc, Hc'. subst c c'.
  pose proof (symbol_split_nonempty rest) as Hne.
  pose proof (IH rest ltac:(simpl in Hlen; lia)) as Hrest.
  destruct (symbol_split rest) as [|chunk chunks] eqn:E; [done|].
  change (String.concat blank_line ("" :: chunk :: chunks))
    with ("" +:+ blank_line +:+ String.concat blank_line (chunk :: chunks)).
  by rewrite Hrest.
Qed.

(** X9. Cutting the listing into chunks loses nothing but the
    separators: there is always at least one chunk, and the chunks joined
    by the pair of line feeds give the listing back. *)
Theorem symbol_split_concat blob :
  symbol_split blob ≠ []
  ∧ String.concat blank_line (symbol_split blob) = blob.
Proof.
  split; [apply symbol_split_nonempty|].
  by apply (symbol_split_concat_bounded (String.length blob)).
Qed.

Lemma star_is_Some {A} p h rest (k : string → option A) :
  string_forall p h = true → is_Some (k rest) →
  is_Some (star p (h +:+ rest) k).
Proof.
  intros Hh Hk. induction h as [|c h IH].
  - rewrite append_nil_l. destruct rest as [|c rest]; simpl; [done|].
    destruct (p c); [|done]. by destruct (star p rest k).
  - simpl in Hh. apply andb_true_iff in Hh as [Hc Hh].
    rewrite append_cons. simpl. rewrite Hc.
    destruct (IH Hh) as [x ->]. eauto.
Qed.

Lemma symbol_ahead_intro h t :
  h ≠ "" → string_forall is_hex h = true →
  symbol_ahead (h +:+ " " +:+ t) = true.
Proof.
  intros Hne Hh. destruct h as [|c h]; [done|].
  simpl in Hh. apply andb_true_iff in Hh as [Hc Hh].
  unfold symbol_ahead. apply bool_decide_eq_true.
  unfold re_match. rewrite append_cons. simpl. rewrite Hc.
  apply star_is_Some; [done|]. rewrite append_cons. simpl. eauto.
Qed.

Lemma symbol_ahead_elim s :
  symbol_ahead s = true →
  ∃ h t, s = h +:+ " " +:+ t ∧ h ≠ "" ∧ string_forall is_hex h = true.
Proof.
  unfold symbol_ahead. intros [m Hm]%bool_decide_eq_true.
  apply rmatch_sound in Hm as (pre & s' & g' & -> & Hpre & _).
  simpl in Hpre.
  inversion Hpre as [| | |? ? s1 s23 H1 H23| | | | |]; subst.
  inversion H23 as [| | |? ? s2 s3 H2 H3| | | | |]; subst.
  inversion H2; subst. inversion H3; subst.
  apply matches_plus_forall in H1 as [Hne Hh].
  exists s1, s'. split; [|done].
  by rewrite append_assoc, append_nil_r.
Qed.

Lemma symbol_split_prefix p s :
  string_forall (λ c, negb (bool_decide (c = LF))) p = true →
  symbol_split (p +:+ s)
  = match symbol_split s with
    | chunk :: chunks => (p +:+ chunk) :: chunks
    | [] => []
    end.
Proof.
  intros Hp. induction p as [|c p IH].
  - rewrite append_nil_l. by destruct (symbol_split s).
  - simpl in Hp. apply andb_true_iff in Hp as [Hc Hp].
    apply negb_true_iff in Hc. rewrite append_cons. simpl. rewrite Hc. simpl.
    rewrite (IH Hp).
    pose proof (symbol_split_nonempty s) as Hne.
    destruct (symbol_split s) as [|chunk chunks]; [done|].
    by destruct (p +:+ s).
Qed.

Lemma splitlines_prefix p s :
  p ≠ "" → string_forall is_inline p = true →
  ∃ l tl, splitlines (p +:+ s) = (p +:+ l) :: tl.
Proof.
  intros Hne Hp. induction p as [|c p IH]; [done|].
  simpl in Hp. apply andb_true_iff in Hp as [Hc Hp].
  unfold is_inline in Hc. apply andb_true_iff in Hc as [Hlf Hcr].
  apply negb_true_iff in Hlf, Hcr.
  rewrite append_cons. simpl. rewrite Hlf, Hcr.
  destruct p as [|c' p].
  - rewrite append_nil_l. destruct (splitlines s) as [|l ls].
    + by exists "", [].
    + by exists l, ls.
  - destruct (IH ltac:(done) Hp) as (l & tl & ->). by exists l, tl.
Qed.

Lemma splitlines_nil s : splitlines s = [] ↔ s = "".
Proof.
  split; [|by intros ->]. destruct s as [|c s']; [done|]. simpl.
  destruct (bool_decide (c = LF)); [done|].
  destruct (bool_decide (c = CR)).
  - destruct s' as [|c' s'']; [done|]. by destruct (bool_decide (c' = LF)).
  - by destruct (splitlines s').
Qed.

Lemma is_hex_inline c : is_hex c = true → is_inline c = true.
Proof. by destruct c as [[] [] [] [] [] [] [] []]. Qed.

Lemma is_inline_not_LF c :
  is_inline c = true → negb (bool_decide (c = LF)) = true.
Proof. unfold is_inline. by intros [? _]%andb_true_iff. Qed.

(** The text of an address: hexadecimal digits and a space. *)
Lemma address_inline h :
  string_forall is_hex h = true → string_forall is_inline (h +:+ " ") = true.
Proof.
  intros Hh. rewrite string_forall_append.
  rewrite (string_forall_impl is_hex is_inline h is_hex_inline Hh). done.
Qed.

Lemma symbol_split_tail_bounded n : ∀ blob chunk,
  (String.length blob ≤ n)%nat →
  chunk ∈ tail (symbol_split blob) →
  ∃ h t, chunk = h +:+ " " +:+ t ∧ h ≠ "" ∧ string_forall is_hex h = true.
Proof.
  induction n as [|n IH]; intros blob chunk Hlen.
  { destruct blob; [|simpl in Hlen; lia]. simpl. by intros ?%elem_of_nil. }
  destruct blob as [|c s']; [simpl; by intros ?%elem_of_nil|]. simpl in Hlen.
  assert (Hgo : chunk ∈ tail match symbol_split s' with
                             | chunk :: chunks => String c chunk :: chunks
                             | [] => [String c ""]
                             end →
                ∃ h t, chunk = h +:+ " " +:+ t ∧ h ≠ ""
                       ∧ string_forall is_hex h = true).
  { intros Hin. apply (IH s'); [lia|].
    destruct (symbol_split s'); [by apply elem_of_nil in Hin|done]. }
  simpl. destruct s' as [|c' rest]; [exact Hgo|].
  destruct (bool_decide (c = LF) && bool_decide (c' = LF) && symbol_ahead rest)
    eqn:Hcut; [|exact Hgo].
  apply andb_true_iff in Hcut as [_ Hahead]. simpl.
  destruct (symbol_ahead_elim _ Hahead) as (h & t & -> & Hne & Hh).
  intros Hin.
  assert (Hsplit : symbol_split (h +:+ " " +:+ t)
                   = match symbol_split t with
                     | chunk :: chunks => ((h +:+ " ") +:+ chunk) :: chunks
                     | [] => []
                     end).
  { rewrite <- append_assoc. apply symbol_split_prefix.
    apply (string_forall_impl is_inline); [apply is_inline_not_LF|].
    by apply address_inline. }
  pose proof (symbol_split_nonempty t) as Hnet.
  destruct (symbol_split t) as [|chunk0 chunks] eqn:Et; [done|].
  rewrite Hsplit in Hin. apply elem_of_cons in Hin as [->|Hin].
  - exists h, chunk0. split; [by rewrite append_assoc|done].
  - apply (IH (h +:+ " " +:+ t)); [simpl in Hlen; lia|].
    by rewrite Hsplit.
Qed.

(** X10. Every block of [get_funcs] but the first starts with a line that
    begins with a hexadecimal address and a space, so that it is never
    empty; the first block is empty, and the constructor fails on
    [lines[0]], exactly when the listing is empty or begins with a
    separator. *)
Theorem get_funcs_blocks blob :
  (∀ block, block ∈ tail (get_funcs blob) →
     ∃ l0 tl, block = l0 :: tl ∧ symbol_ahead l0 = true)
  ∧ (head (get_funcs blob) = Some []
     ↔ blob = ""
       ∨ ∃ rest, blob = blank_line +:+ rest ∧ symbol_ahead rest = true).
Proof.
  split.
  - intros block. unfold get_funcs.
    pose proof (symbol_split_nonempty blob) as Hne.
    pose proof (symbol_split_tail_bounded (String.length blob) blob) as Htail.
    destruct (symbol_split blob) as [|chunk0 chunks]; [done|]. simpl in *.
    intros (chunk & -> & Hin)%list_elem_of_fmap.
    destruct (Htail chunk ltac:(lia) Hin) as (h & t & -> & Hh & Hhex).
    destruct (splitlines_prefix (h +:+ " ") t) as (l & tl & Hl).
    { by destruct h. }
    { by apply address_inline. }
    rewrite <- append_assoc, Hl. exists ((h +:+ " ") +:+ l), tl.
    split; [done|]. rewrite append_assoc. by apply symbol_ahead_intro.
  - unfold get_funcs. destruct blob as [|c s']; [simpl; by split; auto|].
    assert (Hgo : head (splitlines <$>
                    match symbol_split s' with
                    | chunk :: chunks => String c chunk :: chunks
                    | [] => [String c ""]
                    end) ≠ Some []).
    { pose proof (symbol_split_nonempty s') as Hne.
      destruct (symbol_split s') as [|chunk chunks]; [done|].
      rewrite fmap_cons. intros H.
      assert (splitlines (String c chunk) = []) as Hnil%splitlines_nil
        by (by injection H).
      done. }
    simpl. destruct s' as [|c' rest].
    { split; [done|]. intros [?|(rest & Heq & _)]; [done|].
      unfold blank_line in Heq. by rewrite !append_cons in Heq. }
    destruct (bool_decide (c = LF) && bool_decide (c' = LF) && symbol_ahead rest)
      eqn:Hcut.
    + apply andb_true_iff in Hcut as [[Hc Hc']%andb_true_iff Hahead].
      apply bool_decide_eq_true in Hc, Hc'. subst c c'.
      split; [|done]. intros _. right. by exists rest.
    + split; [done|]. intros [?|(rest' & Heq & Hahead)]; [done|].
      unfold blank_line in Heq. rewrite !append_cons, append_nil_l in Heq.
      injection Heq as -> -> ->.
      by rewrite !bool_decide_eq_true_2, Hahead in Hcut.
Qed.

Lemma get_funcs_blocks_witness :
  (∀ block, block ∈ tail (get_funcs sample_blob) →
     ∃ l0 tl, block = l0 :: tl ∧ symbol_ahead l0 = true)
  ∧ (head (get_funcs "") = Some []
     ↔ "" = "" ∨ ∃ rest, "" = blank_line +:+ rest ∧ symbol_ahead rest = true).
Proof.
  split.
  - exact (proj1 (get_funcs_blocks sample_blob)).
  - exact (proj2 (get_funcs_blocks "")).
Defined.

(** ** The walker: further properties *)

Section walker_shift.
Variable py : python.
Variable callees : Function → list string.
Variable all_funcs : gmap string Function.
Variable d : Z.

Lemma py_max_shift this_ss max_ss :
  py_max py ((λ n, n + d) <$> this_ss) (max_ss + d)
  = fmap (M:=result) (λ n, n + d) (py_max py this_ss max_ss).
Proof.
  destruct this_ss, py; simpl; try done; by rewrite Z.add_max_distr_r.
Qed.

Lemma for_callees_shift (rec1 rec2 : string → option walked) funcname level cs :
  ∀ max_ss,
  (∀ c, rec2 c = shifted d <$> rec1 c) →
  for_callees py rec2 funcname level cs (max_ss + d)
  = (λ w : list out_line * result Z,
       (shift d <$> w.1, fmap (M:=result) (λ n, n + d) w.2))
    <$> for_callees py rec1 funcname level cs max_ss.
Proof.
  induction cs as [|c cs IH]; intros max_ss Hrec; simpl; [done|].
  case_bool_decide.
  - rewrite (IH _ Hrec).
    by destruct (for_callees py rec1 funcname level cs max_ss) as [[out r]|].
  - rewrite Hrec. destruct (rec1 c) as [[out1 r1]|]; simpl; [|done].
    destruct r1 as [this_ss|e]; simpl; [|done].
    rewrite py_max_shift.
    destruct (py_max py this_ss max_ss) as [max_ss'|e]; simpl; [|done].
    rewrite (IH _ Hrec).
    destruct (for_callees py rec1 funcname level cs max_ss') as [[out2 r2]|];
      simpl; [|done].
    by rewrite fmap_app.
Qed.

Lemma print_call_tree_rec_shift fuel : ∀ funcname stacksize level,
  print_call_tree_rec py callees all_funcs fuel funcname (stacksize + d) level
  = shifted d
    <$> print_call_tree_rec py callees all_funcs fuel funcname stacksize level.
Proof.
  induction fuel as [|fuel IH]; intros funcname stacksize level; simpl;
    rewrite (Z.add_shuffle0 stacksize d).
  - by case_bool_decide.
  - case_bool_decide; [done|].
    destruct (all_funcs !! funcname) as [func|]; simpl.
    + rewrite (for_callees_shift
        (λ c, print_call_tree_rec py callees all_funcs fuel c
                (stacksize + _stacksize func) (S level))) by (intros c; apply IH).
      destruct (for_callees py _ funcname level (callees func) _)
        as [[out r]|]; simpl; [|done].
      unfold shifted. simpl. by destruct r.
    + done.
Qed.
End walker_shift.

(** X11. The stack size at the start adds to every cumulative size on the
    lines of the nodes and to the value returned, and changes nothing
    else: the lines, their levels and own sizes, the markers and the
    exception are those of the walk from 0. *)
Theorem print_call_tree_shift py callees all_funcs funcname stacksize level :
  print_call_tree py callees all_funcs funcname stacksize level
  = shifted stacksize
    <$> print_call_tree py callees all_funcs funcname 0 level.
Proof.
  unfold print_call_tree.
  by rewrite <- print_call_tree_rec_shift, Z.add_0_l.
Qed.

Lemma line_ok_weaken all_funcs lo lo' hi l :
  (lo' ≤ lo)%nat → line_ok all_funcs lo hi l → line_ok all_funcs lo' hi l.
Proof. intros Hlo [Hlevel Hl]. split; [lia|done]. Qed.

Section walker_lines.
Variable py : python.
Variable callees : Function → list string.
Variable all_funcs : gmap string Function.

Lemma for_callees_lines rec funcname level cs hi :
  (level ≤ 20)%nat → (level ≤ hi)%nat → is_Some (all_funcs !! funcname) →
  (∀ c out r, rec c = Some (out, r) →
     Forall (line_ok all_funcs (S level) hi) out) →
  ∀ max_ss out r,
    for_callees py rec funcname level cs max_ss = Some (out, r) →
    Forall (line_ok all_funcs level hi) out.
Proof.
  intros Hlevel Hhi Hfunc Hrec.
  induction cs as [|c cs IH]; intros max_ss out r; simpl.
  - intros [= <- <-]. constructor.
  - case_bool_decide as Hc.
    + destruct (for_callees py rec funcname level cs max_ss)
        as [[out' r']|] eqn:E; simpl; [|done].
      intros [= <- <-]. constructor; [|by eapply IH].
      split; simpl; [lia|done].
    + destruct (rec c) as [[out1 r1]|] eqn:Ec; simpl; [|done].
      assert (Forall (line_ok all_funcs level hi) out1) as Hout1.
      { eapply Forall_impl; [by eapply Hrec|].
        intros l. apply line_ok_weaken. lia. }
      destruct (r1 ≫= λ this_ss, py_max py this_ss max_ss) as [max_ss'|e].
      * destruct (for_callees py rec funcname level cs max_ss')
          as [[out2 r2]|] eqn:E; simpl; [|done].
        intros [= <- <-]. apply Forall_app. split; [done|by eapply IH].
      * by intros [= <- <-].
Qed.

Lemma print_call_tree_rec_lines fuel : ∀ funcname stacksize level out r,
  print_call_tree_rec py callees all_funcs fuel funcname stacksize level
  = Some (out, r) →
  ∃ out', out = node_line all_funcs funcname stacksize level :: out'
          ∧ Forall (line_ok all_funcs level (level `max` 21)) out.
Proof.
  assert (Hnode : ∀ funcname stacksize level,
    line_ok all_funcs level (level `max` 21)
      (node_line all_funcs funcname stacksize level)).
  { intros. split; simpl; [lia|done]. }
  assert (Hcap : ∀ funcname stacksize level out (r : result (option Z)),
    (20 < level)%nat →
    Some ([node_line all_funcs funcname stacksize level; NestedTooDeeply level],
          Ok None) = Some (out, r) →
    ∃ out', out = node_line all_funcs funcname stacksize level :: out'
            ∧ Forall (line_ok all_funcs level (level `max` 21)) out).
  { intros funcname stacksize level out r Hlevel [= <- <-].
    eexists. split; [done|].
    constructor; [apply Hnode|]. constructor; [|constructor].
    split; simpl; lia. }
  induction fuel as [|fuel IH]; intros funcname stacksize level out r; simpl.
  { case_bool_decide; [|done]. by apply Hcap. }
  case_bool_decide as Hlevel; [by apply Hcap|].
  destruct (all_funcs !! funcname) as [func|] eqn:Hfunc; simpl.
  - destruct (for_callees py _ funcname level (callees func) _)
      as [[out' r']|] eqn:E; simpl; [|done].
    intros [= <- <-]. exists out'.
    split; [by unfold node_line, own_stacksize; rewrite Hfunc|].
    constructor.
    { specialize (Hnode funcname stacksize level).
      by unfold node_line, own_stacksize in Hnode; rewrite Hfunc in Hnode. }
    eapply for_callees_lines; [| | |
      |exact E]; [lia|lia|by rewrite Hfunc|].
    intros c out r Hc. destruct (IH _ _ _ _ _ Hc) as (_ & _ & Hout).
    by replace (level `max` 21)%nat with (S level `max` 21)%nat by lia.
  - intros [= <- <-]. exists [].
    split; [by unfold node_line, own_stacksize; rewrite Hfunc|].
    constructor; [|constructor].
    specialize (Hnode funcname stacksize level).
    by unfold node_line, own_stacksize in Hnode; rewrite Hfunc in Hnode.
Qed.
End walker_lines.

(** X12. Every walk ends, and its output begins with the line of the start
    name: own size from [all_funcs] (0 for a name that is not there),
    cumulative size the sum.  Every further line is at a level from that
    of the call to 21 (to the level of the call when that is above 21);
    every line of a node shows the own size [all_funcs] has for its name;
    the marker of the depth cap stands only at a level above 20, that of a
    recursion only at a level up to 20 and only for a name in
    [all_funcs]. *)
Theorem print_call_tree_lines py callees all_funcs funcname stacksize level :
  ∃ out r,
    print_call_tree py callees all_funcs funcname stacksize level
    = Some (node_line all_funcs funcname stacksize level :: out, r)
    ∧ Forall (line_ok all_funcs level (level `max` 21)) out.
Proof.
  destruct (print_call_tree_total py callees all_funcs funcname stacksize level)
    as (out & r & Hwalk & _).
  destruct (print_call_tree_rec_lines _ _ _ _ _ _ _ _ _ Hwalk)
    as (out' & -> & Hout).
  exists out', r. split; [done|]. by apply Forall_cons in Hout as [_ ?].
Qed.

Lemma too_deep_dec out :
  Forall (λ l, is_too_deep l = false) out
  ∨ Exists (λ l, is_too_deep l = true) out.
Proof.
  induction out as [|l out [IH|IH]].
  - left. constructor.
  - destruct (is_too_deep l) eqn:El.
    + right. by constructor.
    + left. by constructor.
  - right. by constructor 2.
Qed.

(** X13. Under Python 3 a walk from a level up to 20 has one of two
    outcomes.  Either no line [Nested too deeply] was printed, and the
    walker returns the largest cumulative size it printed; or such a line
    was printed, and the walker raises the [TypeError] of [max]. *)
Theorem print_call_tree_python3 callees all_funcs funcname stacksize level :
  (level ≤ 20)%nat →
  ∃ out r,
    print_call_tree Python3 callees all_funcs funcname stacksize level
    = Some (out, r)
    ∧ ((Forall (λ l, is_too_deep l = false) out
        ∧ ∃ m, r = Ok (Some m) ∧ is_max_of out m)
       ∨ (Exists (λ l, is_too_deep l = true) out ∧ r = Raise TypeError)).
Proof.
  intros Hlevel.
  destruct (print_call_tree_total Python3 callees all_funcs funcname stacksize
              level) as (out & r & Hwalk & _).
  exists out, r. split; [done|].
  destruct (too_deep_dec out) as [Hout|Hout]; [left|right]; (split; [done|]).
  - by eapply print_call_tree_max.
  - by eapply print_call_tree_capped_raises.
Qed.

Lemma print_call_tree_python3_witness :
  ∃ out r,
    print_call_tree Python3 callees_elements abc_funcs "A" 0 0 = Some (out, r)
    ∧ ((Forall (λ l, is_too_deep l = false) out
        ∧ ∃ m, r = Ok (Some m) ∧ is_max_of out m)
       ∨ (Exists (λ l, is_too_deep l = true) out ∧ r = Raise TypeError)).
Proof. apply print_call_tree_python3. lia. Defined.

Lemma cumulative_upto_app cap out1 out2 :
  cumulative_upto cap (out1 ++ out2)
  = cumulative_upto cap out1 ++ cumulative_upto cap out2.
Proof. apply omap_app. Qed.

Section python2.
Variable callees : Function → list string.
Variable all_funcs : gmap string Function.

Lemma for_callees_python2_max rec funcname level cs :
  (∀ c out r, rec c = Some (out, r) →
     (r = Ok None ∧ cumulative_upto 20 out = [])
     ∨ ∃ m, r = Ok (Some m) ∧ m ∈ cumulative_upto 20 out
            ∧ ∀ z, z ∈ cumulative_upto 20 out → z ≤ m) →
  ∀ max_ss out r,
    for_callees Python2 rec funcname level cs max_ss = Some (out, r) →
    ∃ m, r = Ok m ∧ (m = max_ss ∨ m ∈ cumulative_upto 20 out) ∧ max_ss ≤ m
         ∧ ∀ z, z ∈ cumulative_upto 20 out → z ≤ m.
Proof.
  intros Hrec. induction cs as [|c cs IH]; intros max_ss out r; simpl.
  - intros [= <- <-]. exists max_ss. split; [done|]. split; [by left|].
    split; [lia|]. intros z Hz. by apply elem_of_nil in Hz.
  - case_bool_decide as Hc.
    + destruct (for_callees Python2 rec funcname level cs max_ss)
        as [[out' r']|] eqn:E; simpl; [|done].
      intros [= <- <-]. destruct (IH _ _ _ E) as (m & -> & Hm & Hle & Hub).
      by exists m.
    + destruct (rec c) as [[out1 r1]|] eqn:Ec; simpl; [|done].
      destruct (Hrec _ _ _ Ec) as [[-> Hnil]|(m1 & -> & Hin1 & Hub1)]; simpl.
      * destruct (for_callees Python2 rec funcname level cs max_ss)
          as [[out2 r2]|] eqn:E; simpl; [|done].
        intros [= <- <-]. destruct (IH _ _ _ E) as (m & -> & Hm & Hle & Hub).
        exists m. by rewrite cumulative_upto_app, Hnil.
      * destruct (for_callees Python2 rec funcname level cs (Z.max m1 max_ss))
          as [[out2 r2]|] eqn:E; simpl; [|done].
        intros [= <- <-]. destruct (IH _ _ _ E) as (m & -> & Hm & Hle & Hub).
        exists m. split; [done|]. rewrite cumulative_upto_app.
        split; [|split].
        -- destruct Hm as [->|Hm]; [|right; apply elem_of_app; by right].
           destruct (Z.max_spec m1 max_ss) as [[_ ->]|[_ ->]]; [by left|].
           right. apply elem_of_app. by left.
        -- lia.
        -- intros z [Hz|Hz]%elem_of_app; [|by apply Hub].
           specialize (Hub1 z Hz). lia.
Qed.

Lemma print_call_tree_rec_python2_max fuel : ∀ funcname stacksize level out r,
  print_call_tree_rec Python2 callees all_funcs fuel funcname stacksize level
  = Some (out, r) →
  if bool_decide (20 < level)%nat
  then r = Ok None ∧ cumulative_upto 20 out = []
  else ∃ m, r = Ok (Some m) ∧ m ∈ cumulative_upto 20 out
            ∧ ∀ z, z ∈ cumulative_upto 20 out → z ≤ m.
Proof.
  induction fuel as [|fuel IH]; intros funcname stacksize level out r; simpl.
  { case_bool_decide; [|done]. intros [= <- <-]. split; [done|].
    unfold cumulative_upto. simpl. by rewrite bool_decide_eq_false_2 by lia. }
  case_bool_decide as Hlevel.
  { intros [= <- <-]. split; [done|].
    unfold cumulative_upto. simpl. by rewrite bool_decide_eq_false_2 by lia. }
  destruct (all_funcs !! funcname) as [func|]; simpl.
  - destruct (for_callees Python2 _ funcname level (callees func) _)
      as [[out' r']|] eqn:E; simpl; [|done].
    intros [= <- <-].
    edestruct for_callees_python2_max as (m & -> & Hm & Hle & Hub);
      [|exact E|].
    { intros c out r Hc. specialize (IH _ _ _ _ _ Hc). simpl in IH.
      case_bool_decide; [by left|by right]. }
    exists m. split; [done|]. unfold cumulative_upto in *. simpl.
    rewrite bool_decide_eq_true_2 by lia. simpl. split.
    + destruct Hm as [->|Hm]; [left|by right].
    + intros z [->|Hz]%elem_of_cons; [lia|by apply Hub].
  - intros [= <- <-]. exists (stacksize + 0). split; [done|].
    unfold cumulative_upto. simpl. rewrite bool_decide_eq_true_2 by lia.
    simpl. split; [left|].
    intros z [->|Hz]%elem_of_cons; [lia|by apply elem_of_nil in Hz].
Qed.
End python2.

(** X14. Under Python 2 a walk from a level up to 20 never raises: it
    returns the largest cumulative size among the lines of the nodes at
    the levels up to 20.  The sizes printed at level 21, where the walk is
    cut, do not count. *)
Theorem print_call_tree_python2 callees all_funcs funcname stacksize level :
  (level ≤ 20)%nat →
  ∃ out m,
    print_call_tree Python2 callees all_funcs funcname stacksize level
    = Some (out, Ok (Some m))
    ∧ m ∈ cumulative_upto 20 out
    ∧ ∀ z, z ∈ cumulative_upto 20 out → z ≤ m.
Proof.
  intros Hlevel.
  destruct (print_call_tree_total Python2 callees all_funcs funcname stacksize
              level) as (out & r & Hwalk & _).
  pose proof (print_call_tree_rec_python2_max _ _ _ _ _ _ _ _ Hwalk) as Hmax.
  rewrite bool_decide_eq_false_2 in Hmax by lia.
  destruct Hmax as (m & -> & Hm). by exists out, m.
Qed.

Lemma print_call_tree_python2_witness :
  ∃ out m,
    print_call_tree Python2 callees_elements cycle_funcs "A" 0 0
    = Some (out, Ok (Some m))
    ∧ m ∈ cumulative_upto 20 out
    ∧ ∀ z, z ∈ cumulative_upto 20 out → z ≤ m.
Proof. apply print_call_tree_python2. lia. Defined.


(** ** The text of a function *)

Example fmt_04x_samples :
  fmt_04x 2424 = "0978" ∧ fmt_04x 0 = "0000" ∧ fmt_04x 74565 = "12345"
  ∧ fmt_04x (-5) = "-005"
  ∧ Function_str (stub "realloc" 2 []) = "<Function name=realloc addr=0x0000>".
Proof. repeat split; vm_compute; reflexivity. Qed.

Lemma hex_value_digit d : 0 ≤ d < 16 → hex_value (hex_digit d) = Some d.
Proof.
  intros Hd.
  assert (d = 0 ∨ d = 1 ∨ d = 2 ∨ d = 3 ∨ d = 4 ∨ d = 5 ∨ d = 6 ∨ d = 7
          ∨ d = 8 ∨ d = 9 ∨ d = 10 ∨ d = 11 ∨ d = 12 ∨ d = 13 ∨ d = 14
          ∨ d = 15) as Hcases by lia.
  repeat (destruct Hcases as [->|Hcases]; [by vm_compute|]).
  subst. by vm_compute.
Qed.

Lemma is_hex_digit d : 0 ≤ d < 16 → is_hex (hex_digit d) = true.
Proof.
  intros Hd.
  assert (d = 0 ∨ d = 1 ∨ d = 2 ∨ d = 3 ∨ d = 4 ∨ d = 5 ∨ d = 6 ∨ d = 7
          ∨ d = 8 ∨ d = 9 ∨ d = 10 ∨ d = 11 ∨ d = 12 ∨ d = 13 ∨ d = 14
          ∨ d = 15) as Hcases by lia.
  repeat (destruct Hcases as [->|Hcases]; [by vm_compute|]).
  subst. by vm_compute.
Qed.

Lemma hex_go_digits fuel : ∀ n acc,
  0 ≤ n < 2 ^ Z.of_nat fuel →
  hex_digits 0 (hex_go fuel n acc) = hex_digits n acc.
Proof.
  induction fuel as [|fuel IH]; intros n acc Hn.
  { simpl in *. by replace n with 0 by lia. }
  simpl. case_bool_decide as Hpos; [by replace n with 0 by lia|].
  rewrite Nat2Z.inj_succ, Z.pow_succ_r in Hn by lia.
  rewrite IH.
  - simpl. rewrite hex_value_digit by (apply Z.mod_pos_bound; lia).
    f_equal. pose proof (Z.div_mod n 16). lia.
  - split; [apply Z.div_pos; lia|]. apply Z.div_lt_upper_bound; lia.
Qed.

Lemma hex_go_forall fuel : ∀ n acc,
  string_forall is_hex acc = true →
  string_forall is_hex (hex_go fuel n acc) = true.
Proof.
  induction fuel as [|fuel IH]; intros n acc Hacc; simpl; [done|].
  case_bool_decide; [done|]. apply IH. simpl.
  rewrite is_hex_digit by (apply Z.mod_pos_bound; lia). done.
Qed.

Lemma hex_go_nonempty fuel : ∀ n acc, acc ≠ "" → hex_go fuel n acc ≠ "".
Proof.
  induction fuel as [|fuel IH]; intros n acc Hacc; simpl; [done|].
  case_bool_decide; [done|]. by apply IH.
Qed.

Lemma hex_spec n :
  0 ≤ n →
  hex n ≠ "" ∧ string_forall is_hex (hex n) = true
  ∧ hex_digits 0 (hex n) = Some n.
Proof.
  intros Hn. unfold hex. case_bool_decide as Hpos.
  { replace n with 0 by lia. by vm_compute. }
  split; [|split].
  - simpl. rewrite bool_decide_eq_false_2 by done. by apply hex_go_nonempty.
  - by apply hex_go_forall.
  - rewrite hex_go_digits; [done|]. split; [done|].
    rewrite Nat2Z.inj_succ, Z2Nat.id by apply Z.log2_nonneg.
    apply Z.log2_spec. lia.
Qed.

Lemma repeat_str_zeros k s : ∀ acc,
  hex_digits acc (repeat_str "0" k +:+ s) = hex_digits (16 ^ Z.of_nat k * acc) s.
Proof.
  induction k as [|k IH]; intros acc.
  - simpl. rewrite append_nil_l. f_equal. lia.
  - cbn [repeat_str]. rewrite append_assoc, !append_cons, append_nil_l.
    simpl. rewrite IH. f_equal.
    rewrite Nat2Z.inj_succ, Z.pow_succ_r by lia. lia.
Qed.

Lemma repeat_str_forall p k :
  p "0"%char = true → string_forall p (repeat_str "0" k) = true.
Proof.
  intros Hp. induction k as [|k IH]; [done|].
  cbn [repeat_str]. rewrite append_cons, append_nil_l. simpl. by rewrite Hp.
Qed.

(** [int(s, 16)] of lower-case hexadecimal digits reads the digits. *)
Lemma int16_hex_digits s :
  s ≠ "" → string_forall is_hex s = true → int16 s = default (Raise ValueError) (Ok <$> hex_digits 0 s).
Proof.
  intros Hne Hs. unfold int16.
  rewrite strip_nonspace
    by (apply (string_forall_impl is_hex); [apply is_hex_nonspace|exact Hs]).
  destruct s as [|c t]; [done|]. clear Hne.
  destruct (hex_digits_hex (String c t) 0 Hs) as (n & Hn & Hpos); [lia|].
  rewrite Hn. simpl.
  simpl in Hs. apply andb_true_iff in Hs as [Hc Ht].
  assert (Hcase : c = "0"%char ∨ c ≠ "0"%char)
    by (destruct (decide (c = "0"%char)); auto).
  destruct Hcase as [->|Hc0].
  - destruct t as [|c2 t2].
    + injection Hn as <-. by vm_compute.
    + simpl in Ht. apply andb_true_iff in Ht as [Hc2 Ht2].
      destruct c2 as [[] [] [] [] [] [] [] []]; try discriminate Hc2;
        simpl in *; by rewrite Hn, Z.mul_1_l.
  - destruct c as [[] [] [] [] [] [] [] []]; try discriminate Hc;
      try (by destruct Hc0); simpl in *; by rewrite Hn, Z.mul_1_l.
Qed.

Lemma fmt_04x_spec n :
  0 ≤ n →
  string_forall is_hex (fmt_04x n) = true ∧ int16 (fmt_04x n) = Ok n.
Proof.
  intros Hn. destruct (hex_spec n Hn) as (Hne & Hhex & Hdigits).
  unfold fmt_04x. rewrite bool_decide_eq_false_2 by lia.
  rewrite append_nil_l, Z.abs_eq by done.
  assert (Hall : string_forall is_hex
            (repeat_str "0" (4 - String.length "" - String.length (hex n))
             +:+ hex n) = true).
  { rewrite string_forall_append, Hhex, repeat_str_forall; done. }
  split; [done|].
  rewrite int16_hex_digits; [|by destruct (repeat_str _ _), (hex n)|done].
  by rewrite repeat_str_zeros, Z.mul_0_r, Hdigits.
Qed.

Lemma append_inj_l p s1 s2 : p +:+ s1 = p +:+ s2 → s1 = s2.
Proof.
  induction p as [|c p IH]; [by rewrite !append_nil_l|].
  rewrite !append_cons. intros [= H]. by apply IH.
Qed.

(** A text cut at the first character that is not in the class [p]. *)
Lemma append_split_unique p c s1 s2 t1 t2 :
  p c = false →
  string_forall p s1 = true → string_forall p s2 = true →
  s1 +:+ String c t1 = s2 +:+ String c t2 → s1 = s2 ∧ t1 = t2.
Proof.
  intros Hc. revert s2. induction s1 as [|c1 s1 IH]; intros [|c2 s2];
    rewrite ?append_nil_l, ?append_cons; simpl.
  - by intros _ _ [= ->].
  - intros _ [Hc2 _]%andb_true_iff [= <- _]. congruence.
  - intros [Hc1 _]%andb_true_iff _ [= -> _]. congruence.
  - intros [_ H1]%andb_true_iff [_ H2]%andb_true_iff [= -> H].
    destruct (IH _ H1 H2 H) as [-> ->]. done.
Qed.

Lemma Function_init_name_addr lines f :
  Function_init lines = Ok f →
  string_forall is_word (_name f) = true ∧ 0 ≤ _addr f.
Proof.
  intros Hf.
  destruct (Function_init_Ok _ _ Hf) as (l0 & tl & -> & Hhd & _).
  destruct (first_line_match l0) as [[name addr]|] eqn:Hm.
  - destruct (first_line_match_groups _ _ _ Hm) as ((_ & Hname) & Hne & Hhex).
    destruct (int16_hex _ Hne Hhex) as (n & Hn & Hpos).
    destruct Hhd as (-> & Haddr & _). split; [done|]. congruence.
  - destruct Hhd as (-> & -> & _). by vm_compute.
Qed.

(** X16. The text of a [Function] that the constructor made tells its name
    and its address: [int(., 16)] of the digits that [__str__] prints
    after [0x] is the address again, and two such functions with the same
    text have the same name and the same address. *)
Theorem Function_str_injective lines1 lines2 f1 f2 :
  Function_init lines1 = Ok f1 → Function_init lines2 = Ok f2 →
  int16 (fmt_04x (_addr f1)) = Ok (_addr f1)
  ∧ (Function_str f1 = Function_str f2 →
     _name f1 = _name f2 ∧ _addr f1 = _addr f2).
Proof.
  intros [Hname1 Haddr1]%Function_init_name_addr
         [Hname2 Haddr2]%Function_init_name_addr.
  destruct (fmt_04x_spec _ Haddr1) as [Hhex1 Hint1].
  destruct (fmt_04x_spec _ Haddr2) as [Hhex2 Hint2].
  split; [done|]. unfold Function_str. intros Heq.
  apply append_inj_l in Heq.
  apply (append_split_unique is_word) in Heq as [Hname Heq]; [|done..].
  split; [done|].
  apply (append_inj_l "addr=0x") in Heq.
  apply (append_split_unique is_hex) in Heq as [Heq _]; [|done..].
  rewrite Heq in Hint1. congruence.
Qed.

Lemma Function_str_injective_witness :
  int16 (fmt_04x 2424) = Ok 2424
  ∧ (Function_str
       {| _name := "realloc"; _addr := 2424; _body := drop 1 realloc_block;
          _callees := {["free"; "malloc"]}; _stacksize := 2 |}
     = Function_str
         {| _name := "realloc"; _addr := 2424;
            _body := [push_r28; rcall_free; ret_line];
            _callees := {["free"]}; _stacksize := 1 |} →
     "realloc" = "realloc" ∧ 2424 = 2424).
Proof.
  apply (Function_str_injective realloc_block
           ["00000978 <realloc>:"; push_r28; rcall_free; ret_line]
           {| _name := "realloc"; _addr := 2424; _body := drop 1 realloc_block;
              _callees := {["free"; "malloc"]}; _stacksize := 2 |}
           {| _name := "realloc"; _addr := 2424;
              _body := [push_r28; rcall_free; ret_line];
              _callees := {["free"]}; _stacksize := 1 |});
    vm_compute; reflexivity.
Defined.

(** ** dump_funcs *)

Lemma splitlines_line s rest :
  string_forall is_inline s = true →
  splitlines (s +:+ nl +:+ rest) = s :: splitlines rest.
Proof.
  induction s as [|c s IH].
  - intros _. by rewrite append_nil_l.
  - intros Hall. simpl in Hall. apply andb_true_iff in Hall as [Hc Hs].
    rewrite append_cons. simpl.
    unfold is_inline in Hc. apply andb_true_iff in Hc as [Hlf Hcr].
    apply negb_true_iff in Hlf, Hcr. rewrite Hlf, Hcr. by rewrite (IH Hs).
Qed.

Lemma is_word_inline c : is_word c = true → is_inline c = true.
Proof. by destruct c as [[] [] [] [] [] [] [] []]. Qed.

Lemma splitlines_joined cs : ∀ c rest,
  Forall (λ c, string_forall is_word c = true) (c :: cs) →
  splitlines ((">>" +:+ tab +:+ String.concat (nl +:+ ">>" +:+ tab) (c :: cs))
              +:+ nl +:+ rest)
  = ((λ c, ">>" +:+ tab +:+ c) <$> c :: cs) ++ splitlines rest.
Proof.
  assert (Hline : ∀ c, string_forall is_word c = true →
                       string_forall is_inline (">>" +:+ tab +:+ c) = true).
  { intros c Hc. rewrite !string_forall_append.
    by rewrite (string_forall_impl is_word is_inline c is_word_inline Hc). }
  induction cs as [|c' cs IH]; intros c rest Hall.
  - apply Forall_cons in Hall as [Hc _]. simpl.
    rewrite <- (splitlines_line _ rest (Hline c Hc)). done.
  - apply Forall_cons in Hall as [Hc Hall].
    change (String.concat (nl +:+ ">>" +:+ tab) (c :: c' :: cs))
      with (c +:+ (nl +:+ ">>" +:+ tab)
            +:+ String.concat (nl +:+ ">>" +:+ tab) (c' :: cs)).
    rewrite fmap_cons. cbn [app]. rewrite <- (IH c' rest Hall).
    rewrite <- (splitlines_line _ _ (Hline c Hc)).
    f_equal. by rewrite !append_assoc.
Qed.

Lemma Function_str_inline f :
  string_forall is_word (_name f) = true → 0 ≤ _addr f →
  string_forall is_inline (Function_str f) = true.
Proof.
  intros Hname Haddr. destruct (fmt_04x_spec _ Haddr) as [Hhex _].
  unfold Function_str. rewrite !string_forall_append.
  rewrite (string_forall_impl is_word is_inline _ is_word_inline Hname).
  rewrite (string_forall_impl is_hex is_inline _ is_hex_inline Hhex).
  done.
Qed.

(** X17. What [dump_funcs] prints, read as lines: for every function the
    line of its [__str__], then one line per callee, [>>], a TAB and the
    name; a function without callees has its line only.  The names are
    runs of word characters and the addresses not negative, as the
    constructor makes them. *)
Theorem dump_funcs_lines callees funcs :
  Forall (λ f, string_forall is_word (_name f) = true ∧ 0 ≤ _addr f
               ∧ Forall (λ c, string_forall is_word c = true) (callees f))
         funcs →
  splitlines (printed (dump_funcs callees funcs))
  = f ← funcs; Function_str f :: ((λ c, ">>" +:+ tab +:+ c) <$> callees f).
Proof.
  induction 1 as [|f funcs (Hname & Haddr & Hcs) _ IH]; [done|].
  change (dump_funcs callees (f :: funcs))
    with ((Function_str f ::
             (if bool_decide (0 < length (callees f))%nat
              then [">>" +:+ tab
                    +:+ String.concat (nl +:+ ">>" +:+ tab) (callees f)]
              else [])) ++ dump_funcs callees funcs).
  rewrite bind_cons. cbn [app]. rewrite <- IH. cbn [app printed foldr].
  rewrite (splitlines_line _ _ (Function_str_inline f Hname Haddr)).
  f_equal. destruct (callees f) as [|c cs]; [done|].
  rewrite bool_decide_eq_true_2 by (simpl; lia).
  cbn [app foldr]. by rewrite <- (splitlines_joined cs c _ Hcs).
Qed.

Lemma dump_funcs_lines_witness :
  splitlines (printed (dump_funcs callees_elements
                         [stub "A" 10 ["B"; "C"]; stub "B" 5 []]))
  = f ← [stub "A" 10 ["B"; "C"]; stub "B" 5 []];
    Function_str f :: ((λ c, ">>" +:+ tab +:+ c) <$> callees_elements f).
Proof.
  apply dump_funcs_lines.
  constructor; [|constructor; [|constructor]];
    (split; [vm_compute; reflexivity|split; [simpl; lia|]]);
    vm_compute; repeat constructor.
Defined.

(** ** A listing without preamble *)

(** X18. A listing that is empty, or that begins with the blank line
    before an address, has an empty first block: the constructor fails on
    [lines[0]] and [process_lss] raises the [IndexError] before any
    function is stored, whatever follows. *)
Theorem process_lss_empty_block all_funcs blob :
  blob = "" ∨ (∃ rest, blob = blank_line +:+ rest ∧ symbol_ahead rest = true) →
  process_lss all_funcs (get_funcs blob) = Raise IndexError.
Proof.
  intros [->|(rest & -> & Hahead)]; [done|].
  unfold get_funcs, blank_line. rewrite !append_cons, append_nil_l.
  cbn [symbol_split]. rewrite !bool_decide_eq_true_2 by done.
  rewrite Hahead. done.
Qed.

Lemma process_lss_empty_block_witness :
  process_lss ∅ (get_funcs (blank_line +:+ "00000100 <A>:")) = Raise IndexError.
Proof.
  apply process_lss_empty_block. right. exists "00000100 <A>:".
  split; vm_compute; reflexivity.
Defined.
